(** * schedgroup: a deferred-task scheduling group

    Verification of [conferences/2020/gopherconeu/final/schedgroup/group.go].

    The development has three layers.

    - The heap: the [tasks] slice with its [heap.Interface] methods, driven
      by the [up] and [down] loops of Go's [container/heap].
    - The dispatch loop of [Group.trigger].
    - The Group: its goroutines (producers, the monitor, the caller of
      [Wait], the task bodies) as an interleaving of atomic steps over one
      shared state.

    Conventions.  An instant ([time.Time]) is an integer number of
    nanoseconds counted from the zero instant [time.Time{}]; a
    [time.Duration] is an [int64] number of nanoseconds.  Slice indices are
    natural numbers.  A computation in [option] that yields [None] stands for
    a Go runtime panic (index out of range). *)

From Stdlib Require Import ZArith Lia List Permutation Sorted.
From stdpp Require Import base option list.

Local Open Scope Z_scope.

(** ** Instants and durations (package [time]) *)

Module Time.

Definition Time := Z.
Definition Duration := Z.

Definition zero : Time := 0.

Definition minDuration : Duration := - 2 ^ 63.
Definition maxDuration : Duration := 2 ^ 63 - 1.

Definition IsZero (t : Time) : bool := t =? zero.
Definition Before (t u : Time) : bool := t <? u.
Definition After (t u : Time) : bool := u <? t.
Definition Add (t : Time) (d : Duration) : Time := t + d.

(** [t.Sub(u)] saturates at the bounds of [Duration]. *)
Definition Sub (t u : Time) : Duration :=
  if maxDuration <? t - u then maxDuration
  else if t - u <? minDuration then minDuration
  else t - u.

End Time.

(** ** Tasks and the task heap *)

(** [type task struct { Deadline time.Time; Call func() }].  A function value
    is opaque to the Group, which only ever calls it; it is represented by a
    name. *)
Record task := Task { Deadline : Time.Time; Call : nat }.

#[global] Instance task_eq_dec : EqDecision task.
Proof. solve_decision. Defined.

(** [type tasks []task] *)
Abbreviation tasks := (list task).


(** *** [heap.Interface] as implemented by [tasks] *)

Definition Len (pq : tasks) : nat := length pq.

Definition Less (pq : tasks) (i j : nat) : option bool :=
  a ← pq !! i; b ← pq !! j; Some (Time.Before (Deadline a) (Deadline b)).

(** [pq[i], pq[j] = pq[j], pq[i]]: both operands are read, then [pq[i]] and
    [pq[j]] are assigned in that order. *)
Definition Swap (pq : tasks) (i j : nat) : option tasks :=
  a ← pq !! i; b ← pq !! j; Some (<[j := a]> (<[i := b]> pq)).

Definition Push (pq : tasks) (x : task) : tasks := pq ++ [x].

Definition Pop (pq : tasks) : option (task * tasks) :=
  let n := length pq in
  item ← pq !! (n - 1)%nat; Some (item, take (n - 1) pq).

(** *** The loops of [container/heap]

    [container/heap] is Go's standard library, not part of this repository;
    [up], [down], [heap_Push] and [heap_Pop] follow the library's functions
    of the same names.  Each loop is unrolled [fuel] times; [None] on an
    exhausted budget never arises with the budgets that [heap_Push] and
    [heap_Pop] pass (see [heap_Push_spec] and [heap_Pop_spec]). *)

Definition parent (j : nat) : nat := ((j - 1) / 2)%nat.

Fixpoint up (fuel : nat) (h : tasks) (j : nat) : option tasks :=
  match fuel with
  | O => None
  | S fuel =>
      let i := parent j in
      if decide (i = j) then Some h
      else
        lt ← Less h j i;
        if negb (lt : bool) then Some h
        else h' ← Swap h i j; up fuel h' i
  end.

(** [down(h, i0, n)]; the boolean that the library returns ("did the
    element move") is unused by [heap.Pop] and left out. *)
Fixpoint down (fuel : nat) (h : tasks) (i n : nat) : option tasks :=
  match fuel with
  | O => None
  | S fuel =>
      let j1 := (2 * i + 1)%nat in
      if decide (n ≤ j1)%nat then Some h
      else
        lt21 ← (if decide (j1 + 1 < n)%nat then Less h (j1 + 1) j1
                else Some false);
        let j := if (lt21 : bool) then (j1 + 1)%nat else j1 in
        ltji ← Less h j i;
        if negb (ltji : bool) then Some h
        else h' ← Swap h i j; down fuel h' j n
  end.

(** [heap.Push(h, x)]: [h.Push(x); up(h, h.Len()-1)] *)
Definition heap_Push (h : tasks) (x : task) : option tasks :=
  let h1 := Push h x in
  up (Len h1) h1 (Len h1 - 1).

(** [heap.Pop(h)]: [n := h.Len()-1; h.Swap(0, n); down(h, 0, n);
    return h.Pop()] *)
Definition heap_Pop (h : tasks) : option (task * tasks) :=
  let n := (Len h - 1)%nat in
  h1 ← Swap h 0 n;
  h2 ← down (Len h) h1 0 n;
  Pop h2.

(** The min-heap invariant: no element is earlier than its parent. *)
Definition heap_ok (h : tasks) : Prop :=
  ∀ k a b, (0 < k)%nat → h !! k = Some a → h !! parent k = Some b →
           Deadline b <= Deadline a.


(** ** Outcomes of a step

    A method of the Group either completes ([Ok]), panics ([Panic]: a Go
    panic ends the whole program), or is not available in the current state
    ([Disabled]: the goroutine is somewhere else, or it is blocked). *)

Inductive outcome (A : Type) : Type :=
| Ok (a : A)
| Panic
| Disabled.
Arguments Ok {A} a.
Arguments Panic {A}.
Arguments Disabled {A}.

Definition obind {A B} (m : outcome A) (k : A → outcome B) : outcome B :=
  match m with
  | Ok a => k a
  | Panic => Panic
  | Disabled => Disabled
  end.

(** A runtime panic of the heap code is a panic of the method running it. *)
Definition or_panic {A} (m : option A) : outcome A :=
  match m with
  | Some a => Ok a
  | None => Panic
  end.

Notation "x ←! m ; k" := (obind m (λ x, k))
  (at level 20, m at level 100, k at level 200, only parsing).
Notation "' x ←! m ; k" := (obind m (λ x, k))
  (at level 20, x pattern, m at level 100, k at level 200, only parsing).

(** ** The dispatch loop of [Group.trigger]

    [for g.tasks.Len() > 0 { next := &g.tasks[0]; if next.Deadline.After(now)
    { return next.Deadline }; t := heap.Pop(&g.tasks).(task); g.wg.Add(1);
    go func() { defer g.wg.Done(); t.Call() }() }; return time.Time{}].

    The result lists the tasks handed to [go], in the order of the [go]
    statements, the heap that is left, and the instant returned.  Every
    iteration pops one task, so [S (Len h)] iterations are enough
    ([trigger_loop_spec]). *)
Fixpoint trigger_loop (fuel : nat) (now : Time.Time) (h : tasks)
  : option (list task * tasks * Time.Time) :=
  match fuel with
  | O => None
  | S fuel =>
      if decide (Len h = 0%nat) then Some ([], h, Time.zero)
      else
        next ← h !! 0%nat;
        if Time.After (Deadline next) now then Some ([], h, Deadline next)
        else
          '(t, h') ← heap_Pop h;
          '(started, rest, ret) ← trigger_loop fuel now h';
          Some (t :: started, rest, ret)
  end.

Definition trigger_pass (now : Time.Time) (h : tasks)
  : option (list task * tasks * Time.Time) :=
  trigger_loop (S (Len h)) now h.

(** ** The Group and its goroutines *)

(** The terminal error of a cancelled [context.Context]. *)
Inductive error : Type :=
| Canceled
| DeadlineExceeded.

#[global] Instance error_eq_dec : EqDecision error.
Proof. solve_decision. Defined.

(** Where the goroutine started by [New] is inside [monitor]. *)
Inductive monitor_pc : Type :=
| MTop                                        (* line 142, about to test ctx.Err() *)
| MReady                                      (* line 147, about to read the clock and trigger *)
| MArm (now next : Time.Time)                 (* line 150, back from trigger *)
| MSelect (tickC : bool)                      (* line 160, parked; tickC = false is the nil channel *)
| MExited.                                    (* returned; wg.Done() has run *)

(** Where the caller of [Wait] is. *)
Inductive wait_pc : Type :=
| WNotCalled
| WEntered                                    (* line 96, ctx.Err() was nil *)
| WLoop                                       (* line 115, about to select *)
| WParked                                     (* line 115, parked in select *)
| WRecvd (n : nat)                            (* line 119, n received from lenC *)
| WCancel                                     (* lines 103 and 126, about to call g.cancel() *)
| WWg                                         (* lines 104 and 127, in g.wg.Wait() *)
| WReturned (err : option error).             (* None is the nil error *)

#[global] Instance monitor_pc_eq_dec : EqDecision monitor_pc.
Proof. solve_decision. Defined.

#[global] Instance wait_pc_eq_dec : EqDecision wait_pc.
Proof. solve_decision. Defined.

(** The shared state.  [g_ctx] is [g.ctx.Err()], [g_mctx] tells whether the
    derived context [mctx] is done (it is done once [g.cancel] ran or the
    cancellation of [g.ctx] reached it), [g_wg] is the counter of [g.wg],
    [g_tasks] the heap.  [timer] is the monitor's [time.Timer]: [Some d] when
    armed for [d], [None] when stopped.  The mutex [g.mu] does not appear:
    each critical section is one step.

    [running], [finished] and [accepted] record what happened: the task
    bodies started and not yet returned, the bodies that returned, and the
    tasks pushed by [Schedule]. *)
Record state : Type := State {
  g_ctx : option error;
  g_mctx : bool;
  g_wg : nat;
  g_tasks : tasks;
  timer : option Time.Duration;
  monitor : monitor_pc;
  waiter : wait_pc;
  running : list task;
  finished : list task;
  accepted : list task
}.

Definition set_ctx (e : option error) (s : state) : state :=
  State e (g_mctx s) (g_wg s) (g_tasks s) (timer s) (monitor s) (waiter s)
        (running s) (finished s) (accepted s).
Definition set_mctx (b : bool) (s : state) : state :=
  State (g_ctx s) b (g_wg s) (g_tasks s) (timer s) (monitor s) (waiter s)
        (running s) (finished s) (accepted s).
Definition set_wg (n : nat) (s : state) : state :=
  State (g_ctx s) (g_mctx s) n (g_tasks s) (timer s) (monitor s) (waiter s)
        (running s) (finished s) (accepted s).
Definition set_tasks (h : tasks) (s : state) : state :=
  State (g_ctx s) (g_mctx s) (g_wg s) h (timer s) (monitor s) (waiter s)
        (running s) (finished s) (accepted s).
Definition set_timer (t : option Time.Duration) (s : state) : state :=
  State (g_ctx s) (g_mctx s) (g_wg s) (g_tasks s) t (monitor s) (waiter s)
        (running s) (finished s) (accepted s).
Definition set_monitor (m : monitor_pc) (s : state) : state :=
  State (g_ctx s) (g_mctx s) (g_wg s) (g_tasks s) (timer s) m (waiter s)
        (running s) (finished s) (accepted s).
Definition set_waiter (w : wait_pc) (s : state) : state :=
  State (g_ctx s) (g_mctx s) (g_wg s) (g_tasks s) (timer s) (monitor s) w
        (running s) (finished s) (accepted s).
Definition set_running (r : list task) (s : state) : state :=
  State (g_ctx s) (g_mctx s) (g_wg s) (g_tasks s) (timer s) (monitor s)
        (waiter s) r (finished s) (accepted s).
Definition set_finished (f : list task) (s : state) : state :=
  State (g_ctx s) (g_mctx s) (g_wg s) (g_tasks s) (timer s) (monitor s)
        (waiter s) (running s) f (accepted s).
Definition set_accepted (a : list task) (s : state) : state :=
  State (g_ctx s) (g_mctx s) (g_wg s) (g_tasks s) (timer s) (monitor s)
        (waiter s) (running s) (finished s) a.

(** [New(ctx)]: [mctx] is derived from [ctx] (and is done at once when [ctx]
    already is), the heap is empty, the counter is 1 for the monitor
    goroutine, and the monitor is about to run [time.NewTimer(0)] and its
    first iteration. *)
Definition New (ctx : option error) : state :=
  State ctx (bool_decide (ctx ≠ None)) 1 [] (Some 0) MTop WNotCalled [] [] [].

(** [g.wg.Done()] panics on a counter that is already zero. *)
Definition wg_Done (s : state) : outcome state :=
  match g_wg s with
  | O => Panic
  | S n => Ok (set_wg n s)
  end.

(** [select { case g.addC <- struct{}{}: default: }].  The channel has no
    buffer: the send goes through only if the monitor is parked in its
    select and nothing has woken it yet, and then the monitor resumes its
    loop; otherwise the signal is dropped. *)
Definition send_addC (s : state) : state :=
  match monitor s with
  | MSelect _ => if g_mctx s then s else set_monitor MTop s
  | _ => s
  end.

(** [select { case g.lenC <- g.tasks.Len(): default: }].  The send goes
    through only if [Wait] is parked in its select and has not been woken by
    [g.ctx.Done()]. *)
Definition send_lenC (s : state) : state :=
  match waiter s, g_ctx s with
  | WParked, None => set_waiter (WRecvd (Len (g_tasks s))) s
  | _, _ => s
  end.

(** [Group.Schedule(when, fn)], lines 67-81. *)
Definition Schedule (when : Time.Time) (fn : nat) (s : state) : outcome state :=
  h ←! or_panic (heap_Push (g_tasks s) (Task when fn));
  Ok (send_addC (set_accepted (accepted s ++ [Task when fn]) (set_tasks h s))).

(** [Group.Delay(delay, fn)], lines 59-61; [now] is what [time.Now()]
    returns. *)
Definition Delay (now : Time.Time) (delay : Time.Duration) (fn : nat)
    (s : state) : outcome state :=
  Schedule (Time.Add now delay) fn s.

(** [Group.trigger(now)], lines 176-212: the loop, then the deferred send of
    the heap's length. *)
Definition trigger (now : Time.Time) (s : state) : outcome (Time.Time * state) :=
  '(started, rest, next) ←! or_panic (trigger_pass now (g_tasks s));
  let s1 := set_running (running s ++ started)
              (set_wg (g_wg s + length started) (set_tasks rest s)) in
  Ok (next, send_lenC s1).

(** The atomic steps.  Every critical section of [g.mu] is one step, and so
    is every stretch of code between two accesses to shared state. *)
Inductive label : Type :=
| LCancel (e : error)                 (* the context given to New is cancelled *)
| LPropagate                          (* that cancellation reaches mctx *)
| LSchedule (when : Time.Time) (fn : nat)
| LDelay (now : Time.Time) (delay : Time.Duration) (fn : nat)
| LWaitEnter                          (* Wait, line 91 *)
| LWaitCheckHeap                      (* Wait, lines 96-107 *)
| LWaitSelect                         (* Wait, line 115: enter the select *)
| LWaitDone                           (* Wait, line 116: woken by g.ctx.Done() *)
| LWaitAfterRecv                      (* Wait, lines 119-129 *)
| LWaitCancel                         (* Wait, lines 103 and 126 *)
| LWaitWg                             (* Wait, lines 104-105 and 127-128 *)
| LMonCheck                           (* monitor, line 142 *)
| LMonTrigger (now : Time.Time)       (* monitor, lines 147-149 *)
| LMonArm                             (* monitor, lines 150-160 *)
| LMonWake                            (* monitor, line 161: woken by ctx.Done() *)
| LMonTick                            (* monitor, line 165: woken by tickC *)
| LBodyDone (i : nat)                 (* the i-th running body returns *)
| LBodyPanic (i : nat).               (* the i-th running body panics *)

(** [Group.Wait], lines 89-131, one step at a time. *)
Definition Wait_step (l : label) (s : state) : outcome state :=
  match l, waiter s with
  | LWaitEnter, WNotCalled =>
      match g_ctx s with
      | Some e => Ok (set_waiter (WReturned (Some e)) s)
      | None => Ok (set_waiter WEntered s)
      end
  | LWaitCheckHeap, WEntered =>
      if decide (Len (g_tasks s) = 0%nat) then Ok (set_waiter WCancel s)
      else Ok (set_waiter WLoop s)
  | LWaitSelect, WLoop =>
      match g_ctx s with
      | Some e => Ok (set_waiter (WReturned (Some e)) s)
      | None => Ok (set_waiter WParked s)
      end
  | LWaitDone, WParked =>
      match g_ctx s with
      | Some e => Ok (set_waiter (WReturned (Some e)) s)
      | None => Disabled
      end
  | LWaitAfterRecv, WRecvd n =>
      match g_ctx s with
      | Some e => Ok (set_waiter (WReturned (Some e)) s)
      | None =>
          if decide (n = 0%nat) then Ok (set_waiter WCancel s)
          else Ok (set_waiter WLoop s)
      end
  | LWaitCancel, WCancel => Ok (set_waiter WWg (set_mctx true s))
  | LWaitWg, WWg =>
      if decide (g_wg s = 0%nat) then Ok (set_waiter (WReturned None) s)
      else Disabled
  | _, _ => Disabled
  end.

(** [Group.monitor], lines 138-171, and the goroutine of [New] around it,
    one step at a time.  A timer that is armed may deliver on [tickC] at any
    later moment; a nil [tickC] never delivers. *)
Definition monitor_step (l : label) (s : state) : outcome state :=
  match l, monitor s with
  | LMonCheck, MTop =>
      if g_mctx s then wg_Done (set_monitor MExited (set_timer None s))
      else Ok (set_monitor MReady s)
  | LMonTrigger now, MReady =>
      '(next, s') ←! trigger now s;
      Ok (set_monitor (MArm now next) s')
  | LMonArm, MArm now next =>
      if negb (Time.IsZero next)
      then Ok (set_monitor (MSelect true) (set_timer (Some (Time.Sub next now)) s))
      else Ok (set_monitor (MSelect false) (set_timer None s))
  | LMonWake, MSelect _ =>
      if g_mctx s then Ok (set_monitor MTop s) else Disabled
  | LMonTick, MSelect true => Ok (set_monitor MTop s)
  | _, _ => Disabled
  end.

(** The goroutine of a task body, [func() { defer g.wg.Done(); t.Call() }],
    returning. *)
Definition body_done (i : nat) (s : state) : outcome state :=
  match running s !! i with
  | Some t =>
      wg_Done (set_finished (finished s ++ [t])
                 (set_running (delete i (running s)) s))
  | None => Disabled
  end.

(** The same goroutine when [t.Call()] (line 206) panics: [Schedule] takes
    any [func()], nil included, and neither the Group nor the goroutine
    recovers, so the panic ends the program. *)
Definition body_panic (i : nat) (s : state) : outcome state :=
  match running s !! i with
  | Some _ => Panic
  | None => Disabled
  end.

Definition step (l : label) (s : state) : outcome state :=
  match l with
  | LCancel e =>
      match g_ctx s with
      | None => Ok (set_ctx (Some e) s)
      | Some _ => Disabled
      end
  | LPropagate =>
      match g_ctx s with
      | Some _ => Ok (set_mctx true s)
      | None => Disabled
      end
  | LSchedule when fn => Schedule when fn s
  | LDelay now delay fn => Delay now delay fn s
  | LWaitEnter | LWaitCheckHeap | LWaitSelect | LWaitDone | LWaitAfterRecv
  | LWaitCancel | LWaitWg => Wait_step l s
  | LMonCheck | LMonTrigger _ | LMonArm | LMonWake | LMonTick =>
      monitor_step l s
  | LBodyDone i => body_done i s
  | LBodyPanic i => body_panic i s
  end.

(** What the environment of the Group may do at a state. *)
Definition policy := state → label → bool.

(** No restriction. *)
Definition any_use : policy := λ _ _, true.

(** The contract of the Group: [Schedule] and [Delay] are not called once
    [Wait] has been entered. *)
Definition contract : policy := λ s l,
  match l with
  | LSchedule _ _ | LDelay _ _ _ => bool_decide (waiter s = WNotCalled)
  | _ => true
  end.

(** Nobody cancels the context. *)
Definition no_cancel : policy := λ s l,
  match l with
  | LCancel _ => false
  | _ => true
  end.

Fixpoint run (p : policy) (tr : list label) (s : state) : outcome state :=
  match tr with
  | [] => Ok s
  | l :: tr => if p s l then s' ←! step l s; run p tr s' else Disabled
  end.

(** The states of a Group made by [New ctx] and used according to [p]. *)
Definition reachable (p : policy) (ctx : option error) (s : state) : Prop :=
  ∃ tr, run p tr (New ctx) = Ok s.

(** ** Auxiliary notions for the heap proofs *)

(** The deadline stored at index [k] (0 past the end). *)
Definition dl (h : tasks) (k : nat) : Z := from_option Deadline 0 (h !! k).

(** The heap order on the first [n] elements. *)
Definition heap_upto (h : tasks) (n : nat) : Prop :=
  ∀ k, (0 < k < n)%nat → dl h (parent k) <= dl h k.

(** The heap order everywhere, except that the element at [j] may be earlier
    than its parent: the loop invariant of [up]. *)
Definition up_inv (h : tasks) (j : nat) : Prop :=
  (∀ k, (0 < k < length h)%nat → k ≠ j → dl h (parent k) <= dl h k) ∧
  ((0 < j)%nat → ∀ k, (0 < k < length h)%nat → parent k = j →
                      dl h (parent j) <= dl h k).

(** The heap order on the first [n] elements, except that the element at [i]
    may be later than its children: the loop invariant of [down]. *)
Definition down_inv (h : tasks) (i n : nat) : Prop :=
  (∀ k, (0 < k < n)%nat → parent k ≠ i → dl h (parent k) <= dl h k) ∧
  ((0 < i)%nat → ∀ k, (0 < k < n)%nat → parent k = i →
                      dl h (parent i) <= dl h k).

(** Sequences of [heap.Push] and [heap.Pop] calls on one heap. *)
Inductive heap_op : Type :=
| OpPush (t : task)
| OpPop.

Fixpoint heap_run (ops : list heap_op) (h : tasks) : option tasks :=
  match ops with
  | [] => Some h
  | OpPush t :: ops => h' ← heap_Push h t; heap_run ops h'
  | OpPop :: ops => '(_, h') ← heap_Pop h; heap_run ops h'
  end.

(** ** Invariants of the Group *)

Definition both (p q : policy) : policy := λ s l, p s l && q s l.

(** The share of the monitor goroutine in [g.wg]. *)
Definition monitor_count (m : monitor_pc) : nat :=
  match m with
  | MExited => 0
  | _ => 1
  end.

(** What holds in every state of a Group, however it is used. *)
Record inv (s : state) : Prop := Inv {
  inv_heap : heap_ok (g_tasks s);
  inv_conserve : accepted s ≡ₚ g_tasks s ++ running s ++ finished s;
  inv_wg : g_wg s = (monitor_count (monitor s) + length (running s))%nat;
  inv_ret : waiter s = WReturned None → g_wg s = 0%nat
}.

(** What holds in addition when the contract is respected: once [Wait] has
    seen the heap empty it stays empty, and the heap is never longer than
    the count that [Wait] last received. *)
Definition inv_contract (s : state) : Prop :=
  match waiter s with
  | WCancel | WWg | WReturned None => g_tasks s = []
  | WRecvd n => (length (g_tasks s) ≤ n)%nat
  | _ => True
  end.

(** What holds in addition when nobody cancels the context. *)
Definition inv_no_cancel (s : state) : Prop :=
  g_ctx s = None ∧ ∀ e, waiter s ≠ WReturned (Some e).

(** The places from which the next step of [Wait] starts by consulting
    [g.ctx]. *)
Definition wait_checks_ctx (w : wait_pc) : bool :=
  match w with
  | WNotCalled | WLoop | WParked | WRecvd _ => true
  | _ => false
  end.

(** ** Statements and executions examined below *)

(** "If the outer cancellation fires at any point, [Wait] returns the
    cancellation's error": whenever [g.ctx] is cancelled at a moment at which
    [Wait] has not returned, every later return of [Wait] carries the error. *)
Definition cancellation_always_reported : Prop :=
  ∀ ctx tr1 tr2 s1 s2 e r,
    run any_use tr1 (New ctx) = Ok s1 →
    g_ctx s1 = Some e →
    (∀ r', waiter s1 ≠ WReturned r') →
    run any_use tr2 s1 = Ok s2 →
    waiter s2 = WReturned r →
    r = Some e.

(** A use of the Group "scheduling N tasks and then waiting": all tasks are
    scheduled, [Wait] is entered, the monitor dispatches everything at an
    instant [now], [Wait] receives the count 0, cancels the monitor and waits
    for the bodies. *)
Definition schedule_all (ts : list task) : list label :=
  (λ t, LSchedule (Deadline t) (Call t)) <$> ts.

Definition schedule_then_wait (ts : list task) (now : Time.Time) : list label :=
  schedule_all ts ++ [LWaitEnter; LWaitCheckHeap] ++
  match ts with
  | [] => [LWaitCancel; LMonCheck; LWaitWg]
  | _ :: _ =>
      [LWaitSelect; LMonCheck; LMonTrigger now; LMonArm; LWaitAfterRecv;
       LWaitCancel; LMonWake; LMonCheck] ++
      replicate (length ts) (LBodyDone 0) ++ [LWaitWg]
  end.

(** An instant that is not before any deadline of [ts]. *)
Definition latest (ts : list task) : Time.Time :=
  foldr Z.max 0 (Deadline <$> ts).

(** ** Further notions used for the monitor and for runs *)

(** The steps of the monitor goroutine. *)
Definition is_monitor_label (l : label) : bool :=
  match l with
  | LMonCheck | LMonTrigger _ | LMonArm | LMonWake | LMonTick => true
  | _ => false
  end.

(** What the monitor's program counter tells about the timer, the derived
    context and the result it holds from [trigger]. *)
Record inv_monitor (s : state) : Prop := InvMonitor {
  invm_arm : ∀ now next, monitor s = MArm now next →
                         next = Time.zero ∨ now < next;
  invm_tick : monitor s = MSelect true → ∃ d, timer s = Some d ∧ 0 < d;
  invm_nil : monitor s = MSelect false → timer s = None;
  invm_exit : monitor s = MExited → timer s = None ∧ g_mctx s = true;
  invm_err : ∀ e, waiter s = WReturned (Some e) → g_ctx s = Some e;
  invm_cancel : waiter s = WWg ∨ waiter s = WReturned None → g_mctx s = true
}.

(** The tasks that a step hands to [go]: those of the pass of [trigger] when
    the step is one, none otherwise. *)
Definition started_by (l : label) (s : state) : list task :=
  match l, monitor s with
  | LMonTrigger now, MReady =>
      match trigger_pass now (g_tasks s) with
      | Some (started, _, _) => started
      | None => []
      end
  | _, _ => []
  end.

(** The tasks started along an execution, in the order of the [go]
    statements. *)
Fixpoint starts (tr : list label) (s : state) : list task :=
  match tr with
  | [] => []
  | l :: tr =>
      match step l s with
      | Ok s' => started_by l s ++ starts tr s'
      | _ => []
      end
  end.

(** The clock readings of the monitor do not go back, and every deadline
    passed to [Schedule] or computed by [Delay] is after the last reading
    the monitor has used ([last]): deadlines are in the future. *)
Fixpoint timed (last : Time.Time) (tr : list label) : bool :=
  match tr with
  | [] => true
  | LMonTrigger now :: tr => (last <=? now) && timed now tr
  | LSchedule when _ :: tr => (last <? when) && timed last tr
  | LDelay now delay _ :: tr => (last <? Time.Add now delay) && timed last tr
  | _ :: tr => timed last tr
  end.

(** ** Tactics *)

(** Bring a state built from setters into the form of a record. *)
Ltac norm_state :=
  cbv [set_ctx set_mctx set_wg set_tasks set_timer set_monitor set_waiter
       set_running set_finished set_accepted
       g_ctx g_mctx g_wg g_tasks timer monitor waiter running finished
       accepted].
Ltac norm_state_in H :=
  cbv [set_ctx set_mctx set_wg set_tasks set_timer set_monitor set_waiter
       set_running set_finished set_accepted
       g_ctx g_mctx g_wg g_tasks timer monitor waiter running finished
       accepted] in H.

(** * Facts *)

(** ** Instants *)

Lemma Sub_exact t u :
  Time.minDuration <= t - u <= Time.maxDuration → Time.Sub t u = t - u.
Proof.
  intros [Hlo Hhi]. unfold Time.Sub.
  destruct (Z.ltb_spec Time.maxDuration (t - u)); [lia|].
  destruct (Z.ltb_spec (t - u) Time.minDuration); [lia|reflexivity].
Qed.

Lemma After_lt t u : Time.After t u = true ↔ u < t.
Proof. unfold Time.After. apply Z.ltb_lt. Qed.

Lemma After_ge t u : Time.After t u = false ↔ t <= u.
Proof. unfold Time.After. apply Z.ltb_ge. Qed.

Lemma Before_lt t u : Time.Before t u = true ↔ t < u.
Proof. unfold Time.Before. apply Z.ltb_lt. Qed.

(** ** The heap *)

Section HeapFacts.
Local Open Scope nat_scope.

Lemma parent_lt j : 0 < j → parent j < j.
Proof. unfold parent. intros. apply Nat.Div0.div_lt_upper_bound. lia. Qed.

Lemma parent_child k i : 0 < k → parent k = i ↔ (k = 2 * i + 1 ∨ k = 2 * i + 2).
Proof.
  unfold parent. intros.
  pose proof (Nat.div_mod_eq (k - 1) 2).
  pose proof (Nat.mod_upper_bound (k - 1) 2).
  lia.
Qed.

Lemma dl_lookup h k a : h !! k = Some a → dl h k = Deadline a.
Proof. unfold dl. by intros ->. Qed.

Lemma heap_ok_upto h : heap_ok h ↔ heap_upto h (length h).
Proof.
  split.
  - intros Hok k [Hk0 Hk].
    destruct (lookup_lt_is_Some_2 h k Hk) as [a Ha].
    assert (parent k < length h) as Hp by (pose proof (parent_lt k Hk0); lia).
    destruct (lookup_lt_is_Some_2 h _ Hp) as [b Hb].
    rewrite (dl_lookup _ _ _ Ha), (dl_lookup _ _ _ Hb). eauto.
  - intros Hup k a b Hk0 Ha Hb.
    rewrite <- (dl_lookup _ _ _ Ha), <- (dl_lookup _ _ _ Hb).
    apply Hup. split; [done|]. by eapply lookup_lt_Some.
Qed.

Lemma Less_spec h i j :
  i < length h → j < length h →
  ∃ b, Less h i j = Some b ∧ (b = true ↔ (dl h i < dl h j)%Z).
Proof.
  intros Hi Hj. unfold Less, dl.
  destruct (lookup_lt_is_Some_2 h i Hi) as [a ->].
  destruct (lookup_lt_is_Some_2 h j Hj) as [b ->]. simpl.
  eexists; split; [done|]. apply Before_lt.
Qed.

Lemma Swap_spec h i j :
  i < length h → j < length h →
  ∃ h', Swap h i j = Some h' ∧ length h' = length h ∧ h' ≡ₚ h ∧
        (∀ k, k ≠ i → k ≠ j → h' !! k = h !! k) ∧
        h' !! j = h !! i ∧ (i ≠ j → h' !! i = h !! j).
Proof.
  intros Hi Hj. unfold Swap.
  destruct (lookup_lt_is_Some_2 h i Hi) as [a Ha].
  destruct (lookup_lt_is_Some_2 h j Hj) as [b Hb].
  rewrite Ha, Hb. simpl. eexists; split; [done|].
  split; [by rewrite !length_insert|].
  split; [by apply Permutation_insert_swap|].
  split; [|split].
  - intros k Hki Hkj. by rewrite !list_lookup_insert_ne.
  - rewrite list_lookup_insert_eq; [done|]. by rewrite length_insert.
  - intros Hij. rewrite list_lookup_insert_ne by done.
    by rewrite list_lookup_insert_eq.
Qed.

Lemma Swap_dl h i j h' :
  i < length h → j < length h → i ≠ j → Swap h i j = Some h' →
  ∀ k, dl h' k = if decide (k = i) then dl h j
                 else if decide (k = j) then dl h i else dl h k.
Proof.
  intros Hi Hj Hij Hsw k.
  destruct (Swap_spec h i j Hi Hj) as (h'' & Hsw' & _ & _ & Hne & Hj' & Hi').
  assert (h'' = h') as -> by congruence.
  unfold dl. repeat case_decide; subst.
  - by rewrite Hi'.
  - by rewrite Hj'.
  - by rewrite Hne.
Qed.


Lemma up_spec fuel : ∀ h j,
  j < fuel → j < length h → up_inv h j →
  ∃ h', up fuel h j = Some h' ∧ heap_upto h' (length h') ∧ h' ≡ₚ h.
Proof.
  induction fuel as [|fuel IH]; intros h j Hfuel Hj [H1 H2]; [lia|].
  simpl. case_decide as Hpj.
  { exists h. split; [done|]. split; [|done].
    intros k Hk. apply H1; [done|].
    destruct (decide (0 < j)) as [Hj0|]; [|lia].
    pose proof (parent_lt j Hj0). lia. }
  assert (0 < j) as Hj0 by (destruct j; [by compute in Hpj|lia]).
  pose proof (parent_lt j Hj0) as Hlt.
  remember (parent j) as i eqn:Hi.
  destruct (Less_spec h j i) as (b & -> & Hb); [lia..|]. simpl.
  destruct b; simpl.
  - destruct (Swap_spec h i j) as (h' & Hsw & Hlen & Hperm & _); [lia..|].
    rewrite Hsw. simpl.
    pose proof (Swap_dl h i j h' ltac:(lia) ltac:(lia) ltac:(lia) Hsw) as Hdl.
    assert (dl h j < dl h i)%Z as Hless by (by apply Hb).
    destruct (IH h' i) as (h'' & Hup & Hok & Hperm'); [lia..| |].
    + split.
      * intros k Hk Hne. rewrite Hlen in Hk.
        destruct (decide (k = j)) as [->|Hkj].
        { rewrite <- Hi, !Hdl. repeat case_decide; lia. }
        pose proof (H1 k Hk Hkj) as H1k. pose proof (H2 Hj0 k Hk) as H2k.
        clear Hi.
        pose proof (parent_lt k ltac:(lia)).
        rewrite !Hdl. repeat case_decide; subst; lia.
      * intros Hp0 k Hk Hpk. rewrite Hlen in Hk.
        pose proof (H1 i ltac:(lia) ltac:(lia)) as H1p.
        pose proof (parent_lt i Hp0).
        pose proof (parent_lt k ltac:(lia)).
        destruct (decide (k = j)) as [->|Hkj].
        { rewrite !Hdl. repeat case_decide; lia. }
        pose proof (H1 k Hk Hkj) as H1k. rewrite Hpk in H1k.
        rewrite !Hdl. repeat case_decide; lia.
    + exists h''. split; [done|]. split; [done|]. by rewrite Hperm'.
  - exists h. split; [done|]. split; [|done].
    intros k Hk. destruct (decide (k = j)) as [->|]; [|by apply H1].
    rewrite <- Hi.
    destruct (Z.lt_ge_cases (dl h j) (dl h i)) as [Hc|Hc]; [|done].
    apply Hb in Hc. done.
Qed.

Lemma down_unfold fuel h i n :
  down (S fuel) h i n =
  let j1 := 2 * i + 1 in
  if decide (n ≤ j1) then Some h
  else
    lt21 ← (if decide (j1 + 1 < n) then Less h (j1 + 1) j1 else Some false);
    let j := if (lt21 : bool) then j1 + 1 else j1 in
    ltji ← Less h j i;
    if negb (ltji : bool) then Some h
    else h' ← Swap h i j; down fuel h' j n.
Proof. reflexivity. Qed.

Lemma down_spec fuel : ∀ h i n,
  n - i < fuel → n ≤ length h → down_inv h i n →
  ∃ h', down fuel h i n = Some h' ∧ heap_upto h' n ∧ h' ≡ₚ h ∧
        length h' = length h ∧ ∀ k, n ≤ k → h' !! k = h !! k.
Proof.
  induction fuel as [|fuel IH]; intros h i n Hfuel Hn [H1 H2]; [lia|].
  rewrite down_unfold. cbv zeta. set (j1 := 2 * i + 1).
  case_decide as Hj1.
  { exists h. split; [done|]. split; [|done].
    intros k Hk. apply H1; [done|].
    pose proof (parent_child k i ltac:(lia)). lia. }
  assert (∃ b1, (if decide (j1 + 1 < n) then Less h (j1 + 1) j1 else Some false)
                = Some b1 ∧
                (b1 = true → j1 + 1 < n ∧ (dl h (j1 + 1) < dl h j1)%Z) ∧
                (b1 = false → j1 + 1 < n → (dl h j1 <= dl h (j1 + 1))%Z))
    as (b1 & -> & Hb1t & Hb1f).
  { case_decide as Hj2.
    - destruct (Less_spec h (j1 + 1) j1) as (b & -> & Hb); [lia..|].
      exists b. split; [done|]. split.
      + intros ->. split; [done|]. by apply Hb.
      + intros -> _.
        destruct (Z.lt_ge_cases (dl h (j1 + 1)) (dl h j1)) as [Hc|Hc]; [|done].
        apply Hb in Hc. done.
    - exists false. split; [done|]. split; [done|]. lia. }
  simpl. set (j := if b1 then j1 + 1 else j1).
  assert (j < n ∧ (j = j1 ∨ j = j1 + 1) ∧
          (dl h j <= dl h j1)%Z ∧ (j1 + 1 < n → (dl h j <= dl h (j1 + 1))%Z))
    as (Hjn & Hjj & Hjl & Hjr).
  { subst j. destruct b1.
    - destruct (Hb1t eq_refl). lia.
    - pose proof (Hb1f eq_refl). lia. }
  clearbody j. clear Hb1t Hb1f.
  destruct (Less_spec h j i) as (b & -> & Hb); [lia..|]. simpl.
  destruct b; simpl.
  - destruct (Swap_spec h i j) as (h' & Hsw & Hlen & Hperm & Hne & _);
      [lia..|].
    rewrite Hsw. simpl.
    pose proof (Swap_dl h i j h' ltac:(lia) ltac:(lia) ltac:(lia) Hsw) as Hdl.
    assert (dl h j < dl h i)%Z as Hless by (by apply Hb).
    destruct (IH h' j n) as (h'' & Hdn & Hok & Hperm' & Hlen' & Hhi);
      [lia..| |].
    + split.
      * intros k Hk Hne'.
        assert (parent j = i) as Hji by (apply parent_child; lia).
        destruct (decide (k = j)) as [->|Hkj].
        { rewrite Hji, !Hdl. repeat case_decide; lia. }
        destruct (decide (k = i)) as [->|Hki].
        { pose proof (parent_lt i ltac:(lia)).
          pose proof (H2 ltac:(lia) j ltac:(lia) Hji).
          rewrite !Hdl. repeat case_decide; lia. }
        destruct (decide (parent k = i)) as [Hpk|Hpk].
        { apply parent_child in Hpk as Hk'; [|lia].
          assert (dl h j <= dl h k)%Z.
          { destruct Hk' as [->| ->]; [done|].
            replace (2 * i + 2) with (j1 + 1) in * by lia. apply Hjr. lia. }
          rewrite Hpk, !Hdl. repeat case_decide; lia. }
        pose proof (H1 k Hk Hpk).
        rewrite !Hdl. repeat case_decide; lia.
      * intros Hj0 k Hk Hpk.
        assert (parent j = i) as Hji by (apply parent_child; lia).
        pose proof (parent_lt k ltac:(lia)).
        pose proof (H1 k Hk ltac:(lia)) as H1k. rewrite Hpk in H1k.
        rewrite Hji, !Hdl. repeat case_decide; lia.
    + exists h''. split; [done|]. split; [done|].
      split; [by rewrite Hperm'|]. split; [lia|].
      intros k Hk. rewrite Hhi by done. apply Hne; lia.
  - exists h. split; [done|]. split; [|done].
    intros k Hk.
    assert (dl h i <= dl h j)%Z as Hge.
    { destruct (Z.lt_ge_cases (dl h j) (dl h i)) as [Hc|Hc]; [|done].
      apply Hb in Hc. done. }
    destruct (decide (parent k = i)) as [Hp|Hp]; [|by apply H1].
    pose proof (parent_child k i ltac:(lia)) as Hci.
    rewrite Hp.
    assert (k = j1 ∨ k = j1 + 1) as [->| ->] by lia; lia.
Qed.


Lemma heap_root_min h :
  heap_upto h (length h) → ∀ k, k < length h → (dl h 0 <= dl h k)%Z.
Proof.
  intros Hup k. induction (lt_wf k) as [k _ IH]. intros Hk.
  destruct (decide (k = 0)) as [->|Hk0]; [done|].
  pose proof (parent_lt k ltac:(lia)) as Hlt.
  etrans; [apply (IH (parent k)); lia|]. apply Hup. lia.
Qed.

Lemma heap_ok_root_min h r t :
  heap_ok h → h !! 0 = Some r → t ∈ h → (Deadline r <= Deadline t)%Z.
Proof.
  intros Hok Hr [k Hk]%list_elem_of_lookup.
  rewrite <- (dl_lookup _ _ _ Hr), <- (dl_lookup _ _ _ Hk).
  apply heap_root_min; [by apply heap_ok_upto|]. by eapply lookup_lt_Some.
Qed.

Lemma heap_Push_spec h x :
  heap_ok h → ∃ h', heap_Push h x = Some h' ∧ heap_ok h' ∧ h' ≡ₚ x :: h.
Proof.
  intros Hok%heap_ok_upto. unfold heap_Push, Push, Len.
  rewrite length_app. simpl.
  replace (length h + 1 - 1) with (length h) by lia.
  destruct (up_spec (length h + 1) (h ++ [x]) (length h))
    as (h' & Hup & Hok' & Hperm).
  - lia.
  - rewrite length_app. simpl. lia.
  - split.
    + intros k Hk Hne. rewrite length_app in Hk. simpl in Hk.
      pose proof (parent_lt k ltac:(lia)).
      unfold dl. rewrite !lookup_app_l by lia. apply Hok. lia.
    + intros Hj0 k Hk Hpk. rewrite length_app in Hk. simpl in Hk.
      apply parent_child in Hpk; lia.
  - exists h'. split; [done|]. split; [by apply heap_ok_upto|].
    rewrite Hperm. by rewrite Permutation_app_comm.
Qed.

Lemma heap_Pop_nil : heap_Pop [] = None.
Proof. reflexivity. Qed.

Lemma heap_Pop_spec h :
  heap_ok h → h ≠ [] →
  ∃ t h', heap_Pop h = Some (t, h') ∧ h !! 0 = Some t ∧ heap_ok h' ∧
          h ≡ₚ t :: h'.
Proof.
  intros Hok%heap_ok_upto Hnil. unfold heap_Pop, Len.
  assert (0 < length h) as Hlen by (destruct h; [done|simpl; lia]).
  set (n := length h - 1).
  destruct (Swap_spec h 0 n) as (h1 & -> & Hlen1 & Hperm1 & Hne1 & Hn1 & _);
    [lia..|].
  simpl.
  destruct (down_spec (length h) h1 0 n)
    as (h2 & -> & Hok2 & Hperm2 & Hlen2 & Hhi2); [lia..| |].
  { split; [|lia]. intros k Hk Hpk.
    pose proof (parent_lt k ltac:(lia)).
    unfold dl. rewrite !Hne1 by lia. apply Hok. lia. }
  simpl. unfold Pop. rewrite Hlen2, Hlen1. fold n.
  destruct (lookup_lt_is_Some_2 h 0 Hlen) as [t Ht].
  assert (h2 !! n = Some t) as Hn2 by (rewrite Hhi2 by lia; congruence).
  rewrite Hn2. simpl. exists t, (take n h2).
  split; [done|]. split; [done|]. split.
  - apply heap_ok_upto. rewrite length_take, Hlen2, Hlen1.
    replace (n `min` length h) with n by lia.
    intros k Hk. pose proof (parent_lt k ltac:(lia)).
    unfold dl. rewrite !lookup_take_lt by lia. by apply Hok2.
  - rewrite <- Hperm1, <- Hperm2.
    rewrite <- (take_drop n h2) at 1.
    rewrite (drop_S _ _ _ Hn2), drop_ge by lia.
    by rewrite Permutation_app_comm.
Qed.

End HeapFacts.

(** ** The dispatch loop *)

Section TriggerFacts.

Lemma trigger_loop_spec now fuel : ∀ h,
  (length h < fuel)%nat → heap_ok h →
  ∃ started rest ret,
    trigger_loop fuel now h = Some (started, rest, ret) ∧
    heap_ok rest ∧
    h ≡ₚ started ++ rest ∧
    Forall (λ t, Deadline t <= now) started ∧
    Forall (λ t, now < Deadline t) rest ∧
    ret = match rest with [] => Time.zero | r :: _ => Deadline r end ∧
    StronglySorted Z.le (Deadline <$> started).
Proof.
  induction fuel as [|fuel IH]; intros h Hfuel Hok; [lia|].
  simpl. unfold Len. case_decide as Hlen.
  { apply length_zero_iff_nil in Hlen as ->.
    exists [], [], Time.zero. repeat split; auto using Forall_nil.
    constructor. }
  destruct h as [|next h0] eqn:Hh; [done|]. rewrite <- Hh in *.
  assert (h !! 0%nat = Some next) as Hroot by (by subst h).
  rewrite Hroot. simpl.
  destruct (Time.After (Deadline next) now) eqn:Hafter.
  - apply After_lt in Hafter.
    exists [], h, (Deadline next). repeat split; auto using Forall_nil.
    + apply Forall_forall. intros t Ht.
      pose proof (heap_ok_root_min h next t Hok Hroot Ht). lia.
    + by subst h.
    + constructor.
  - apply After_ge in Hafter.
    destruct (heap_Pop_spec h Hok) as (t & h' & Hpop & Ht & Hok' & Hperm);
      [by subst h|].
    assert (t = next) as -> by congruence.
    rewrite Hpop. simpl.
    assert (length h = S (length h')) as Hlen'.
    { by rewrite Hperm. }
    destruct (IH h') as (started & rest & ret & -> & Hrok & Hp & Hs & Hr & Hret & Hsort);
      [lia|done|].
    simpl. exists (next :: started), rest, ret.
    repeat split; auto.
    + rewrite Hperm, Hp. done.
    + rewrite fmap_cons. constructor; [done|].
      apply Forall_fmap, Forall_forall. intros u Hu. simpl.
      apply (heap_ok_root_min h next u Hok Hroot).
      rewrite Hperm, Hp. apply elem_of_cons. right.
      apply elem_of_app. by left.
Qed.

Lemma trigger_pass_spec now h :
  heap_ok h →
  ∃ started rest ret,
    trigger_pass now h = Some (started, rest, ret) ∧
    heap_ok rest ∧
    h ≡ₚ started ++ rest ∧
    Forall (λ t, Deadline t <= now) started ∧
    Forall (λ t, now < Deadline t) rest ∧
    ret = match rest with [] => Time.zero | r :: _ => Deadline r end ∧
    StronglySorted Z.le (Deadline <$> started).
Proof. intros Hok. apply trigger_loop_spec; [unfold Len; lia|done]. Qed.

(** A non-decreasing list without repetition is increasing. *)
Lemma StronglySorted_le_lt (l : list Z) :
  StronglySorted Z.le l → NoDup l → StronglySorted Z.lt l.
Proof.
  induction 1 as [|x l Hs IH Hall]; intros Hnd; [constructor|].
  apply NoDup_cons in Hnd as [Hx Hnd]. constructor; [by apply IH|].
  apply Forall_forall. intros y Hy.
  rewrite Forall_forall in Hall. pose proof (Hall y Hy).
  assert (x ≠ y) by (intros ->; done). lia.
Qed.

End TriggerFacts.

(** ** Loop budgets

    A loop that has ended within its budget ends in the same way within any
    larger one: the budgets are not part of the behaviour. *)

Lemma up_fuel_mono fuel : ∀ fuel' h j h',
  (fuel ≤ fuel')%nat → up fuel h j = Some h' → up fuel' h j = Some h'.
Proof.
  induction fuel as [|fuel IH]; intros fuel' h j h' Hle Hup; [done|].
  destruct fuel' as [|fuel']; [lia|]. simpl in *.
  case_decide; [done|].
  destruct (Less h j (parent j)) as [[]|]; simpl in *; try done.
  destruct (Swap h (parent j) j); simpl in *; [|done].
  apply IH; [lia|done].
Qed.

Lemma down_fuel_mono fuel : ∀ fuel' h i n h',
  (fuel ≤ fuel')%nat → down fuel h i n = Some h' → down fuel' h i n = Some h'.
Proof.
  induction fuel as [|fuel IH]; intros fuel' h i n h' Hle Hdown; [done|].
  destruct fuel' as [|fuel']; [lia|]. rewrite down_unfold in *. cbv zeta in *.
  case_decide; [done|].
  apply bind_Some in Hdown as (b1 & -> & Hdown). cbn [mbind option_bind].
  apply bind_Some in Hdown as (b2 & -> & Hdown). cbn [mbind option_bind].
  destruct b2; cbn [negb] in *; [|done].
  apply bind_Some in Hdown as (h1 & -> & Hdown). cbn [mbind option_bind].
  apply IH; [lia|done].
Qed.

Lemma trigger_loop_fuel_mono now fuel : ∀ fuel' h r,
  (fuel ≤ fuel')%nat →
  trigger_loop fuel now h = Some r → trigger_loop fuel' now h = Some r.
Proof.
  induction fuel as [|fuel IH]; intros fuel' h r Hle Hloop; [done|].
  destruct fuel' as [|fuel']; [lia|]. simpl in *.
  case_decide; [done|].
  destruct (h !! 0%nat) as [next|]; simpl in *; [|done].
  destruct (Time.After (Deadline next) now); [done|].
  destruct (heap_Pop h) as [[t h1]|]; simpl in *; [|done].
  destruct (trigger_loop fuel now h1) as [r1|] eqn:Hr1; simpl in *; [|done].
  by rewrite (IH fuel' h1 r1 ltac:(lia) Hr1).
Qed.

(** ** The Group: elementary facts about steps *)

Lemma obind_Ok {A B} (m : outcome A) (k : A → outcome B) b :
  obind m k = Ok b ↔ ∃ a, m = Ok a ∧ k a = Ok b.
Proof.
  destruct m; simpl; split; try (intros (? & ? & ?); simplify_eq); eauto;
    done.
Qed.

Lemma run_app p tr1 tr2 s :
  run p (tr1 ++ tr2) s = s' ←! run p tr1 s; run p tr2 s'.
Proof.
  revert s. induction tr1 as [|l tr1 IH]; intros s; simpl; [done|].
  destruct (p s l); [|done]. destruct (step l s); simpl; auto.
Qed.

Lemma run_invariant (I : state → Prop) (p : policy) :
  (∀ s l s', I s → p s l = true → step l s = Ok s' → I s') →
  ∀ tr s s', I s → run p tr s = Ok s' → I s'.
Proof.
  intros Hstep tr. induction tr as [|l tr IH]; intros s s' HI Hrun;
    simpl in Hrun; [by simplify_eq|].
  destruct (p s l) eqn:Hp; [|done].
  apply obind_Ok in Hrun as (s1 & Hs1 & Hrun). eauto.
Qed.

Lemma run_weaken (p q : policy) :
  (∀ s l, p s l = true → q s l = true) →
  ∀ tr s s', run p tr s = Ok s' → run q tr s = Ok s'.
Proof.
  intros Hpq tr. induction tr as [|l tr IH]; intros s s' Hrun;
    simpl in *; [done|].
  destruct (p s l) eqn:Hp; [|done]. rewrite (Hpq _ _ Hp).
  apply obind_Ok in Hrun as (s1 & -> & Hrun). simpl. eauto.
Qed.

Lemma reachable_any p ctx s : reachable p ctx s → reachable any_use ctx s.
Proof. intros [tr Htr]. exists tr. by eapply run_weaken. Qed.

Lemma reachable_both_l p q ctx s : reachable (both p q) ctx s → reachable p ctx s.
Proof.
  intros [tr Htr]. exists tr. eapply run_weaken; [|done].
  unfold both. by intros ?? [? _]%andb_prop.
Qed.

Lemma reachable_both_r p q ctx s : reachable (both p q) ctx s → reachable q ctx s.
Proof.
  intros [tr Htr]. exists tr. eapply run_weaken; [|done].
  unfold both. by intros ?? [_ ?]%andb_prop.
Qed.

Lemma reachable_step p ctx s l s' :
  reachable p ctx s → p s l = true → step l s = Ok s' → reachable p ctx s'.
Proof.
  intros [tr Htr] Hp Hstep. exists (tr ++ [l]).
  rewrite run_app, Htr. simpl. by rewrite Hp, Hstep.
Qed.

Lemma reachable_invariant (I : state → Prop) p ctx :
  I (New ctx) →
  (∀ s l s', I s → p s l = true → step l s = Ok s' → I s') →
  ∀ s, reachable p ctx s → I s.
Proof. intros H0 Hstep s [tr Htr]. by eapply run_invariant. Qed.

(** The two non-blocking sends touch only the program counter of the
    receiver. *)
Lemma send_addC_fields s :
  let s' := send_addC s in
  g_ctx s' = g_ctx s ∧ g_mctx s' = g_mctx s ∧ g_wg s' = g_wg s ∧
  g_tasks s' = g_tasks s ∧ timer s' = timer s ∧ waiter s' = waiter s ∧
  running s' = running s ∧ finished s' = finished s ∧
  accepted s' = accepted s ∧
  monitor_count (monitor s') = monitor_count (monitor s).
Proof.
  cbv zeta. unfold send_addC.
  destruct (monitor s) eqn:Hm; destruct (g_mctx s) eqn:Hc; simpl;
    rewrite ?Hm, ?Hc;
    repeat split; done.
Qed.

Lemma send_lenC_fields s :
  let s' := send_lenC s in
  g_ctx s' = g_ctx s ∧ g_mctx s' = g_mctx s ∧ g_wg s' = g_wg s ∧
  g_tasks s' = g_tasks s ∧ timer s' = timer s ∧ monitor s' = monitor s ∧
  running s' = running s ∧ finished s' = finished s ∧
  accepted s' = accepted s.
Proof. cbv zeta. unfold send_lenC. repeat case_match; simpl; repeat split; done. Qed.

(** ** The Group: invariants *)

Lemma inv_New ctx : inv (New ctx).
Proof.
  split; simpl; try done.
Qed.

Lemma Schedule_Ok when fn s :
  heap_ok (g_tasks s) →
  ∃ h, heap_Push (g_tasks s) (Task when fn) = Some h ∧ heap_ok h ∧
       h ≡ₚ Task when fn :: g_tasks s ∧
       Schedule when fn s =
       Ok (send_addC (set_accepted (accepted s ++ [Task when fn])
                        (set_tasks h s))).
Proof.
  intros Hok.
  destruct (heap_Push_spec (g_tasks s) (Task when fn) Hok)
    as (h & Hpush & Hok' & Hperm).
  exists h. unfold Schedule. rewrite Hpush. done.
Qed.

Lemma trigger_Ok now s :
  heap_ok (g_tasks s) →
  ∃ started rest next,
    trigger_pass now (g_tasks s) = Some (started, rest, next) ∧
    heap_ok rest ∧
    g_tasks s ≡ₚ started ++ rest ∧
    Forall (λ t, Deadline t <= now) started ∧
    Forall (λ t, now < Deadline t) rest ∧
    next = match rest with [] => Time.zero | r :: _ => Deadline r end ∧
    StronglySorted Z.le (Deadline <$> started) ∧
    trigger now s =
    Ok (next, send_lenC (set_running (running s ++ started)
                           (set_wg (g_wg s + length started)
                              (set_tasks rest s)))).
Proof.
  intros Hok.
  destruct (trigger_pass_spec now (g_tasks s) Hok)
    as (started & rest & next & Hpass & ?).
  exists started, rest, next. unfold trigger. rewrite Hpass. simpl.
  intuition.
Qed.

Lemma inv_Schedule when fn s s' :
  inv s → Schedule when fn s = Ok s' → inv s'.
Proof.
  intros [Hh Hc Hw Hr] Hs.
  destruct (Schedule_Ok when fn s Hh) as (h & _ & Hok & Hperm & Heq).
  rewrite Heq in Hs. simplify_eq.
  destruct (send_addC_fields
              (set_accepted (accepted s ++ [Task when fn]) (set_tasks h s)))
    as (_ & _ & Hwg & Htasks & _ & Hwaiter & Hrun & Hfin & Hacc & Hmc).
  split; rewrite ?Hwg, ?Htasks, ?Hwaiter, ?Hrun, ?Hfin, ?Hacc, ?Hmc; simpl;
    try done.
  rewrite Hperm, Hc. solve_Permutation.
Qed.

Lemma trigger_monitor now s next s' :
  trigger now s = Ok (next, s') → monitor s' = monitor s.
Proof.
  unfold trigger. intros ([[started rest] ret] & _ & Heq)%obind_Ok.
  simplify_eq.
  match goal with |- monitor (send_lenC ?s0) = _ =>
    destruct (send_lenC_fields s0) as (_ & _ & _ & _ & _ & -> & _)
  end.
  done.
Qed.

Lemma inv_trigger now s next s' :
  inv s → monitor s = MReady → trigger now s = Ok (next, s') → inv s'.
Proof.
  intros [Hh Hc Hw Hr] Hm Hs.
  destruct (trigger_Ok now s Hh)
    as (started & rest & next' & _ & Hok & Hperm & _ & _ & _ & _ & Heq).
  rewrite Heq in Hs. simplify_eq.
  match goal with |- inv (send_lenC ?s0) =>
    destruct (send_lenC_fields s0)
      as (_ & _ & Hwg & Htasks & _ & Hmon & Hrun & Hfin & Hacc);
    pose proof (eq_refl : waiter s0 = waiter s) as Hw0
  end.
  split; rewrite ?Hwg, ?Htasks, ?Hmon, ?Hrun, ?Hfin, ?Hacc; simpl;
    try done.
  - rewrite Hc, Hperm. solve_Permutation.
  - rewrite Hw, length_app. lia.
  - intros Hret. rewrite Hm in Hw. simpl in Hw.
    unfold send_lenC in Hret. simpl in Hret.
    destruct (waiter s) eqn:Hws; try destruct (g_ctx s); simpl in Hret;
      rewrite ?Hws in Hret; simplify_eq; specialize (Hr eq_refl); lia.
Qed.

Lemma body_panic_not_Ok i s s' : body_panic i s ≠ Ok s'.
Proof. unfold body_panic. by case_match. Qed.

Lemma inv_step s l s' : inv s → step l s = Ok s' → inv s'.
Proof.
  intros Hinv Hs. destruct l; simpl in Hs.
  - destruct (g_ctx s); simplify_eq. by destruct Hinv.
  - destruct (g_ctx s); simplify_eq. by destruct Hinv.
  - by eapply inv_Schedule.
  - by eapply inv_Schedule.
  - unfold Wait_step in Hs. destruct Hinv.
    repeat case_match; simplify_eq; by split.
  - unfold Wait_step in Hs. destruct Hinv.
    repeat case_match; simplify_eq; by split.
  - unfold Wait_step in Hs. destruct Hinv.
    repeat case_match; simplify_eq; by split.
  - unfold Wait_step in Hs. destruct Hinv.
    repeat case_match; simplify_eq; by split.
  - unfold Wait_step in Hs. destruct Hinv.
    repeat case_match; simplify_eq; by split.
  - unfold Wait_step in Hs. destruct Hinv.
    repeat case_match; simplify_eq; by split.
  - unfold Wait_step in Hs. destruct Hinv.
    repeat case_match; simplify_eq; by split.
  - unfold monitor_step, wg_Done in Hs. destruct Hinv as [Hh Hc Hw Hr].
    destruct (monitor s) eqn:Hm; try done.
    destruct (g_mctx s); simpl in Hs.
    + destruct (g_wg s) as [|n] eqn:Hn; simplify_eq. simpl in Hw.
      split; simpl; try done; [lia|]. intros Hret. specialize (Hr Hret). lia.
    + simplify_eq. split; simpl; rewrite ?Hm in *; done.
  - unfold monitor_step in Hs.
    destruct (monitor s) eqn:Hm; try done.
    apply obind_Ok in Hs as ([next s1] & Htr & Hs). simplify_eq.
    pose proof (trigger_monitor _ _ _ _ Htr) as Hm1. rewrite Hm in Hm1.
    destruct (inv_trigger _ _ _ _ Hinv Hm Htr) as [Hh Hc Hw Hr].
    split; simpl; rewrite ?Hm1 in *; done.
  - unfold monitor_step in Hs. destruct Hinv as [Hh Hc Hw Hr].
    destruct (monitor s) eqn:Hm; try done.
    case_match; simplify_eq; split; simpl; rewrite ?Hm in *; done.
  - unfold monitor_step in Hs. destruct Hinv as [Hh Hc Hw Hr].
    destruct (monitor s) eqn:Hm; try done.
    case_match; simplify_eq; split; simpl; rewrite ?Hm in *; done.
  - unfold monitor_step in Hs. destruct Hinv as [Hh Hc Hw Hr].
    destruct (monitor s) eqn:Hm; try done.
    case_match; simplify_eq; split; simpl; rewrite ?Hm in *; done.
  - unfold body_done, wg_Done in Hs. destruct Hinv as [Hh Hc Hw Hr].
    destruct (running s !! i) as [t|] eqn:Hi; [|done]. simpl in Hs.
    destruct (g_wg s) as [|n] eqn:Hn; simplify_eq.
    pose proof (delete_Permutation _ _ _ Hi) as Hdel.
    pose proof (lookup_lt_Some _ _ _ Hi) as Hlt.
    split; simpl; try done.
    + rewrite Hc. rewrite Hdel at 1. solve_Permutation.
    + rewrite length_delete by eauto. lia.
    + intros Hret. specialize (Hr Hret). lia.
  - by apply body_panic_not_Ok in Hs.
Qed.

Lemma reachable_inv p ctx s : reachable p ctx s → inv s.
Proof.
  apply reachable_invariant; [apply inv_New|].
  intros ??? Hinv _ Hstep. by eapply inv_step.
Qed.

Lemma step_no_panic s l :
  inv s → (∀ i, l ≠ LBodyPanic i) → step l s ≠ Panic.
Proof.
  intros [Hh Hc Hw Hr] Hl.
  assert (∀ when fn, Schedule when fn s ≠ Panic) as HS.
  { intros when fn. destruct (Schedule_Ok when fn s Hh) as (? & _ & _ & _ & ->).
    done. }
  destruct l; simpl; try apply HS.
  - by destruct (g_ctx s).
  - by destruct (g_ctx s).
  - unfold Wait_step. by repeat case_match.
  - unfold Wait_step. by repeat case_match.
  - unfold Wait_step. by repeat case_match.
  - unfold Wait_step. by repeat case_match.
  - unfold Wait_step. by repeat case_match.
  - unfold Wait_step. by repeat case_match.
  - unfold Wait_step. by repeat case_match.
  - unfold monitor_step, wg_Done.
    destruct (monitor s) eqn:Hm; try done. simpl in Hw.
    destruct (g_mctx s); [|done]. simpl. by destruct (g_wg s).
  - unfold monitor_step. destruct (monitor s); try done.
    destruct (trigger_Ok now s Hh) as (? & ? & ? & _ & _ & _ & _ & _ & _ & _ & ->).
    done.
  - unfold monitor_step. by repeat case_match.
  - unfold monitor_step. by repeat case_match.
  - unfold monitor_step. by repeat case_match.
  - unfold body_done, wg_Done.
    destruct (running s !! i) eqn:Hi; [|done]. simpl.
    apply lookup_lt_Some in Hi. destruct (g_wg s); [lia|done].
  - by destruct (Hl i).
Qed.

Lemma step_panic_is_body_panic s l :
  inv s → step l s = Panic → ∃ i t, l = LBodyPanic i ∧ running s !! i = Some t.
Proof.
  intros Hinv HP.
  assert ((∃ i, l = LBodyPanic i) ∨ ∀ i, l ≠ LBodyPanic i) as [[i ->]|Hn].
  { destruct l; try (by right); left; by eexists. }
  - simpl in HP. unfold body_panic in HP.
    destruct (running s !! i) as [t|] eqn:Hi; [|done]. by exists i, t.
  - by destruct (step_no_panic s l Hinv Hn).
Qed.

Lemma inv_contract_same s s' :
  waiter s' = waiter s → g_tasks s' = g_tasks s →
  inv_contract s → inv_contract s'.
Proof. unfold inv_contract. by intros -> ->. Qed.

Lemma inv_contract_step s l s' :
  inv s → inv_contract s → contract s l = true → step l s = Ok s' →
  inv_contract s'.
Proof.
  intros Hinv Hic Hp Hs.
  assert (∀ when fn, waiter s = WNotCalled → Schedule when fn s = Ok s' →
                     waiter s' = WNotCalled) as HS.
  { intros when fn Hw HS.
    destruct (Schedule_Ok when fn s (inv_heap _ Hinv)) as (h & _ & _ & _ & Heq).
    rewrite Heq in HS. simplify_eq.
    match goal with |- waiter (send_addC ?s0) = _ =>
      destruct (send_addC_fields s0) as (_ & _ & _ & _ & _ & -> & _)
    end. done. }
  destruct l; simpl in Hs, Hp;
    try (by apply body_panic_not_Ok in Hs);
    try (apply (inv_contract_same s); [| |done];
         unfold monitor_step, body_done, wg_Done in Hs;
         repeat case_match; by simplify_eq);
    unfold inv_contract in *.
  - apply bool_decide_eq_true in Hp. by rewrite (HS _ _ Hp Hs).
  - apply bool_decide_eq_true in Hp. by rewrite (HS _ _ Hp Hs).
  - unfold Wait_step in Hs. repeat case_match; by simplify_eq.
  - unfold Wait_step, Len in Hs. repeat case_match; simplify_eq; simpl; try done.
    by apply length_zero_iff_nil.
  - unfold Wait_step in Hs. repeat case_match; by simplify_eq.
  - unfold Wait_step in Hs. repeat case_match; by simplify_eq.
  - unfold Wait_step in Hs. destruct (waiter s) eqn:Hw; try done.
    repeat case_match; simplify_eq; simpl; try done.
    apply length_zero_iff_nil. lia.
  - unfold Wait_step in Hs. destruct (waiter s) eqn:Hw; try done.
    by simplify_eq.
  - unfold Wait_step in Hs. destruct (waiter s) eqn:Hw; try done.
    case_match; by simplify_eq.
  - unfold monitor_step in Hs. destruct (monitor s) eqn:Hm; try done.
    apply obind_Ok in Hs as ([next s1] & Htr & Hs). simplify_eq. simpl.
    destruct (trigger_Ok now s (inv_heap _ Hinv))
      as (started & rest & next' & _ & _ & Hperm & _ & _ & _ & _ & Heq).
    rewrite Heq in Htr. simplify_eq.
    assert (length rest ≤ length (g_tasks s))%nat as Hle.
    { rewrite Hperm, length_app. lia. }
    unfold send_lenC. simpl.
    destruct (waiter s) eqn:Hw; simpl; rewrite ?Hw; try done;
      try (destruct (g_ctx s); simpl; rewrite ?Hw; unfold Len; simpl; done);
      try lia;
      try (rewrite Hic in Hle; destruct rest; simpl in *; [done|lia]).
    destruct err; [done|].
    rewrite Hic in Hle; destruct rest; simpl in *; [done|lia].
Qed.

Lemma reachable_contract_inv ctx s :
  reachable contract ctx s → inv s ∧ inv_contract s.
Proof.
  apply (reachable_invariant (λ s, inv s ∧ inv_contract s)).
  - split; [apply inv_New|done].
  - intros s0 l s1 [Hinv Hic] Hp Hstep.
    split; [by eapply inv_step|by eapply inv_contract_step].
Qed.

(** * Properties of the Group *)

(** ** [Schedule] and [Delay] *)

(** C1. [Schedule] and [Delay] have no failure path: in every state of a
    Group, also once [Wait] has been entered, the call returns normally,
    the task is on the heap and the caller of [Wait] is not disturbed.  No
    AfterWait condition is raised. *)
Theorem Schedule_after_Wait_is_accepted p ctx s when fn :
  reachable p ctx s → waiter s ≠ WNotCalled →
  ∃ s', Schedule when fn s = Ok s' ∧
        (∀ now delay, Time.Add now delay = when → Delay now delay fn s = Ok s') ∧
        waiter s' = waiter s ∧
        g_tasks s' ≡ₚ Task when fn :: g_tasks s ∧
        accepted s' = accepted s ++ [Task when fn].
Proof.
  intros Hr%reachable_inv _.
  destruct (Schedule_Ok when fn s (inv_heap _ Hr)) as (h & _ & _ & Hperm & Heq).
  eexists. split; [exact Heq|].
  match goal with |- context [send_addC ?s0] =>
    destruct (send_addC_fields s0)
      as (_ & _ & _ & Htasks & _ & Hwaiter & _ & _ & Hacc & _)
  end.
  split; [|by rewrite Htasks, Hwaiter, Hacc].
  intros now delay <-. exact Heq.
Qed.

Lemma Schedule_after_Wait_is_accepted_witness :
  ∃ s', Schedule 5 1 (set_waiter WCancel (New None)) = Ok s' ∧
        (∀ now delay, Time.Add now delay = 5 →
                      Delay now delay 1 (set_waiter WCancel (New None)) = Ok s') ∧
        waiter s' = WCancel ∧
        g_tasks s' ≡ₚ [Task 5 1] ∧
        accepted s' = [Task 5 1].
Proof.
  apply (Schedule_after_Wait_is_accepted any_use None
           (set_waiter WCancel (New None)) 5 1).
  - exists [LWaitEnter; LWaitCheckHeap]. reflexivity.
  - discriminate.
Defined.

(** C9. [Delay(d, fn)] is [Schedule(now + d, fn)] for the instant [now] read
    at the call.  With a negative [d] the deadline is already past: the
    first dispatch pass that reads a clock not before [now] starts the
    task. *)
Theorem Delay_is_Schedule_at_now_plus_delay p ctx s now delay fn :
  reachable p ctx s →
  Delay now delay fn s = Schedule (now + delay) fn s ∧
  ∃ s', Delay now delay fn s = Ok s' ∧
        (delay < 0 →
         now + delay < now ∧
         ∀ now', now <= now' →
           ∃ started rest next,
             trigger_pass now' (g_tasks s') = Some (started, rest, next) ∧
             Task (now + delay) fn ∈ started).
Proof.
  intros Hr%reachable_inv. split; [done|].
  unfold Delay, Time.Add.
  destruct (Schedule_Ok (now + delay) fn s (inv_heap _ Hr))
    as (h & _ & Hok & Hperm & Heq).
  eexists. split; [exact Heq|]. intros Hneg. split; [lia|].
  intros now' Hnow'.
  match goal with |- context [send_addC ?s0] =>
    destruct (send_addC_fields s0) as (_ & _ & _ & -> & _)
  end.
  simpl.
  destruct (trigger_pass_spec now' h Hok)
    as (started & rest & next & Hpass & _ & Hp & _ & Hrest & _).
  exists started, rest, next. split; [done|].
  assert (Task (now + delay) fn ∈ started ++ rest) as Hin.
  { rewrite <- Hp, Hperm. by left. }
  apply elem_of_app in Hin as [Hin|Hin]; [done|].
  rewrite Forall_forall in Hrest. apply Hrest in Hin. simpl in Hin. lia.
Qed.

Lemma Delay_is_Schedule_at_now_plus_delay_witness :
  Delay 100 (-7) 1 (New None) = Schedule (100 + -7) 1 (New None) ∧
  ∃ s', Delay 100 (-7) 1 (New None) = Ok s' ∧
        (-7 < 0 →
         100 + -7 < 100 ∧
         ∀ now', 100 <= now' →
           ∃ started rest next,
             trigger_pass now' (g_tasks s') = Some (started, rest, next) ∧
             Task (100 + -7) 1 ∈ started).
Proof.
  apply (Delay_is_Schedule_at_now_plus_delay any_use None (New None) 100 (-7) 1).
  exists []. reflexivity.
Defined.

(** ** [Wait] *)

(** However the Group is used, a nil return of [Wait] comes after the
    counter of [g.wg] reached zero: the monitor has exited and no body is
    running, and it stays so. *)
Lemma Wait_success_bodies_done p ctx s :
  reachable p ctx s → waiter s = WReturned None →
  g_wg s = 0%nat ∧ running s = [] ∧ monitor s = MExited.
Proof.
  intros [Hh Hc Hw Hr]%reachable_inv Hret. specialize (Hr Hret).
  rewrite Hr in Hw. split; [done|].
  destruct (running s); [|simpl in Hw; lia].
  split; [done|]. by destruct (monitor s).
Qed.

(** When the contract is respected, the heap is empty as well, and what
    has finished is what was scheduled. *)
Lemma contract_Wait_success ctx s :
  reachable contract ctx s → waiter s = WReturned None →
  g_tasks s = [] ∧ running s = [] ∧ g_wg s = 0%nat ∧ monitor s = MExited ∧
  finished s ≡ₚ accepted s.
Proof.
  intros Hr Hret.
  destruct (Wait_success_bodies_done _ _ _ Hr Hret) as (Hwg & Hrun & Hmon).
  destruct (reachable_contract_inv _ _ Hr) as [[Hh Hc _ _] Hic].
  unfold inv_contract in Hic. rewrite Hret in Hic.
  repeat split; try done. by rewrite Hc, Hic, Hrun.
Qed.

(** Once the monitor has returned, no step starts a task: the heap only
    grows, and the bodies running or finished remain those that were. *)
Lemma monitor_exited_frame q s tr s' :
  inv s → monitor s = MExited → run q tr s = Ok s' →
  monitor s' = MExited ∧
  running s' ++ finished s' ≡ₚ running s ++ finished s ∧
  (∀ t, t ∈ g_tasks s → t ∈ g_tasks s').
Proof.
  intros Hr Hm Hrun.
  pose (K := λ s1 : state,
          inv s1 ∧ monitor s1 = MExited ∧
          running s1 ++ finished s1 ≡ₚ running s ++ finished s ∧
          (∀ t, t ∈ g_tasks s → t ∈ g_tasks s1)).
  assert (K s') as (_ & ? & ? & ?); [|done].
  apply (run_invariant K q) with (tr := tr) (s := s); [| |done].
  2:{ unfold K. split; [done|]. split; [done|]. split; [reflexivity|done]. }
  clear Hrun. intros s1 l s2 (Hinv & Hm1 & Hp & Hsub) _ Hs.
  split; [by eapply inv_step|].
  assert (∀ when fn, Schedule when fn s1 = Ok s2 →
                     monitor s2 = MExited ∧
                     running s2 ++ finished s2 ≡ₚ running s ++ finished s ∧
                     (∀ t, t ∈ g_tasks s → t ∈ g_tasks s2)) as HS.
  { intros when fn HS.
    destruct (Schedule_Ok when fn s1 (inv_heap _ Hinv))
      as (h & _ & _ & Hperm & Heq).
    rewrite Heq in HS. simplify_eq. unfold send_addC. simpl. rewrite Hm1.
    simpl. repeat split; try done.
    intros t Ht. rewrite Hperm. right. auto. }
  destruct l; simpl in Hs;
    try (by apply body_panic_not_Ok in Hs); try (by eapply HS);
    try (unfold monitor_step in Hs; rewrite Hm1 in Hs; done);
    try (unfold Wait_step in Hs; repeat case_match; by simplify_eq).
  unfold body_done, wg_Done in Hs.
  destruct (running s1 !! i) as [t|] eqn:Hi; [|done]. simpl in Hs.
  destruct (g_wg s1); simplify_eq. simpl. repeat split; try done.
  rewrite <- Hp. rewrite (delete_Permutation _ _ _ Hi) at 2.
  solve_Permutation.
Qed.

(** C2. [Wait] can return nil while a task is on the heap.  [Wait] is
    entered on the empty Group and sees the heap empty (line 97);
    [Schedule(when, fn)] is then called and accepted; [Wait] cancels the
    monitor, waits for [g.wg] and returns nil (lines 103-105).  The heap
    then holds the task, which was scheduled and has not run, and it never
    runs: in every continuation it is still on the heap and is neither
    running nor finished.  What holds of every use is the other half of the
    claim (lemma [Wait_success_bodies_done]: every body that was started has
    returned); the heap is empty as well when no [Schedule] comes after
    [Wait] is entered (lemma [contract_Wait_success]). *)
Theorem Wait_returns_nil_with_task_on_heap when fn :
  let t := Task when fn in
  let s := State None true 0 [t] None MExited (WReturned None) [] [] [t] in
  run any_use [LWaitEnter; LWaitCheckHeap; LSchedule when fn;
               LWaitCancel; LMonCheck; LWaitWg] (New None) = Ok s ∧
  waiter s = WReturned None ∧ g_tasks s = [t] ∧ accepted s = [t] ∧
  finished s = [] ∧
  ∀ q tr s', run q tr s = Ok s' →
             t ∈ g_tasks s' ∧ t ∉ running s' ++ finished s'.
Proof.
  intros t s.
  assert (run any_use [LWaitEnter; LWaitCheckHeap; LSchedule when fn;
                       LWaitCancel; LMonCheck; LWaitWg] (New None) = Ok s)
    as Hrun by reflexivity.
  repeat split; try done.
  - destruct (monitor_exited_frame q s tr s') as (_ & _ & Hsub); try done.
    + apply (reachable_inv any_use None). by eexists.
    + apply Hsub. simpl. by left.
  - destruct (monitor_exited_frame q s tr s') as (_ & Hp & _); try done.
    + apply (reachable_inv any_use None). by eexists.
    + simpl in Hp. apply Permutation_nil_r in Hp. rewrite Hp.
      apply not_elem_of_nil.
Qed.

(** C10. After a count has been received from [lenC], [Wait] consults
    [g.ctx] again before it looks at the count: if the context is cancelled
    it returns the context's error, whatever the count, zero included. *)
Theorem Wait_rechecks_ctx_after_receive s n e :
  waiter s = WRecvd n → g_ctx s = Some e →
  step LWaitAfterRecv s = Ok (set_waiter (WReturned (Some e)) s) ∧
  ∀ l s', step l s = Ok s' → waiter s' ≠ waiter s → l = LWaitAfterRecv.
Proof.
  intros Hw Hc. split.
  { simpl. unfold Wait_step. by rewrite Hw, Hc. }
  intros l s' Hs Hne.
  destruct l; simpl in Hs;
    try (by apply body_panic_not_Ok in Hs); try done;
    try (unfold Wait_step in Hs; rewrite Hw in Hs; done);
    exfalso; apply Hne.
  - rewrite Hc in Hs. done.
  - rewrite Hc in Hs. by simplify_eq.
  - unfold Schedule in Hs. apply obind_Ok in Hs as (h & _ & Hs). simplify_eq.
    match goal with |- waiter (send_addC ?s0) = _ =>
      by destruct (send_addC_fields s0) as (_ & _ & _ & _ & _ & -> & _)
    end.
  - unfold Delay, Schedule in Hs. apply obind_Ok in Hs as (h & _ & Hs).
    simplify_eq.
    match goal with |- waiter (send_addC ?s0) = _ =>
      by destruct (send_addC_fields s0) as (_ & _ & _ & _ & _ & -> & _)
    end.
  - unfold monitor_step, wg_Done in Hs. repeat case_match; by simplify_eq.
  - unfold monitor_step in Hs. destruct (monitor s); try done.
    apply obind_Ok in Hs as ([next s1] & Htr & Hs). simplify_eq. simpl.
    unfold trigger in Htr.
    apply obind_Ok in Htr as ([[started rest] ret] & _ & Htr). simplify_eq.
    unfold send_lenC. simpl. by rewrite Hw.
  - unfold monitor_step in Hs. repeat case_match; by simplify_eq.
  - unfold monitor_step in Hs. repeat case_match; by simplify_eq.
  - unfold monitor_step in Hs. repeat case_match; by simplify_eq.
  - unfold body_done, wg_Done in Hs. repeat case_match; by simplify_eq.
Qed.

Lemma Wait_rechecks_ctx_after_receive_witness :
  let s := State (Some Canceled) false 2 [] (Some 0) (MArm 10 0) (WRecvd 0)
             [Task 10 1] [] [Task 10 1] in
  reachable any_use None s ∧
  step LWaitAfterRecv s = Ok (set_waiter (WReturned (Some Canceled)) s) ∧
  ∀ l s', step l s = Ok s' → waiter s' ≠ waiter s → l = LWaitAfterRecv.
Proof.
  split.
  - exists [LSchedule 10 1; LWaitEnter; LWaitCheckHeap; LWaitSelect; LMonCheck;
            LMonTrigger 10; LCancel Canceled].
    reflexivity.
  - apply (Wait_rechecks_ctx_after_receive _ 0%nat Canceled); reflexivity.
Defined.

(** ** The heap, [trigger] and the monitor *)

(** C6. [heap.Push] and [heap.Pop] keep the heap order (and neither panics,
    [heap.Pop] on a non-empty heap); after any sequence of pushes and pops
    starting from the empty heap, and so in every state of a Group, the root
    holds the smallest deadline of the heap. *)
Theorem heap_order_is_preserved :
  (∀ h x, heap_ok h → ∃ h', heap_Push h x = Some h' ∧ heap_ok h' ∧
                            h' ≡ₚ x :: h) ∧
  (∀ h, heap_ok h → h ≠ [] →
        ∃ t h', heap_Pop h = Some (t, h') ∧ h !! 0%nat = Some t ∧
                heap_ok h' ∧ h ≡ₚ t :: h') ∧
  (∀ ops h r t, heap_run ops [] = Some h → h !! 0%nat = Some r → t ∈ h →
                Deadline r <= Deadline t) ∧
  (∀ p ctx s r t, reachable p ctx s → g_tasks s !! 0%nat = Some r →
                  t ∈ g_tasks s → Deadline r <= Deadline t).
Proof.
  split; [apply heap_Push_spec|]. split; [apply heap_Pop_spec|]. split.
  - intros ops h r t Hrun. apply heap_ok_root_min.
    assert (∀ h0, heap_ok h0 → heap_run ops h0 = Some h → heap_ok h) as Hgen.
    { clear Hrun. induction ops as [|[x|] ops IH]; intros h0 Hok Hrun;
        simpl in Hrun.
      - by simplify_eq.
      - destruct (heap_Push_spec h0 x Hok) as (h1 & Hpush & Hok1 & _).
        rewrite Hpush in Hrun. simpl in Hrun. eauto.
      - destruct h0 as [|y h0]; [done|].
        destruct (heap_Pop_spec (y :: h0) Hok) as (u & h1 & Hpop & _ & Hok1 & _);
          [done|].
        rewrite Hpop in Hrun. simpl in Hrun. eauto. }
    apply (Hgen []); [|done]. intros k a b _ Hk. by rewrite lookup_nil in Hk.
  - intros p ctx s r t Hr%reachable_inv. apply heap_ok_root_min, Hr.
Qed.

(** C4. [trigger(now)] never panics.  It takes from the heap exactly the
    tasks whose deadline is not after [now] and starts them, adding one to
    the counter of [g.wg] for each; every task left has its deadline after
    [now].  It returns the deadline of the root of the heap that is left, or
    the zero instant when that heap is empty. *)
Theorem trigger_dispatches_due_tasks p ctx s now :
  reachable p ctx s →
  ∃ started next s',
    trigger now s = Ok (next, s') ∧
    g_tasks s ≡ₚ started ++ g_tasks s' ∧
    Forall (λ t, Deadline t <= now) started ∧
    Forall (λ t, now < Deadline t) (g_tasks s') ∧
    running s' = running s ++ started ∧
    g_wg s' = (g_wg s + length started)%nat ∧
    (g_tasks s' = [] → next = Time.zero) ∧
    (∀ r, g_tasks s' !! 0%nat = Some r → next = Deadline r).
Proof.
  intros Hr%reachable_inv.
  destruct (trigger_Ok now s (inv_heap _ Hr))
    as (started & rest & next & _ & _ & Hperm & Hst & Hrest & Hnext & _ & Heq).
  eexists started, next, _. split; [exact Heq|].
  match goal with |- context [send_lenC ?s0] =>
    destruct (send_lenC_fields s0) as (_ & _ & -> & -> & _ & _ & -> & _)
  end.
  simpl. subst next. repeat split; try done.
  - by intros ->.
  - intros r Hroot. destruct rest; simpl in *; by simplify_eq.
Qed.

Lemma trigger_dispatches_due_tasks_witness :
  ∃ started next s',
    trigger 25 (State None false 1 [Task 10 2; Task 30 1; Task 20 3] (Some 0)
                  MReady WNotCalled [] []
                  [Task 30 1; Task 10 2; Task 20 3]) = Ok (next, s') ∧
    [Task 10 2; Task 30 1; Task 20 3] ≡ₚ started ++ g_tasks s' ∧
    Forall (λ t, Deadline t <= 25) started ∧
    Forall (λ t, 25 < Deadline t) (g_tasks s') ∧
    running s' = [] ++ started ∧
    g_wg s' = (1 + length started)%nat ∧
    (g_tasks s' = [] → next = Time.zero) ∧
    (∀ r, g_tasks s' !! 0%nat = Some r → next = Deadline r).
Proof.
  apply (trigger_dispatches_due_tasks any_use None
           (State None false 1 [Task 10 2; Task 30 1; Task 20 3] (Some 0)
              MReady WNotCalled [] [] [Task 30 1; Task 10 2; Task 20 3]) 25).
  exists [LSchedule 30 1; LSchedule 10 2; LSchedule 20 3; LMonCheck].
  reflexivity.
Defined.

(** C5. The tasks that one pass of [trigger(now)] starts are started in
    order of non-decreasing deadline, all of them due at [now]; when no two
    tasks of the heap share a deadline, the deadlines of the tasks started
    increase strictly. *)
Theorem trigger_starts_in_deadline_order p ctx s now next s' :
  reachable p ctx s → trigger now s = Ok (next, s') →
  ∃ started,
    running s' = running s ++ started ∧
    Forall (λ t, Deadline t <= now) started ∧
    StronglySorted Z.le (Deadline <$> started) ∧
    (NoDup (Deadline <$> g_tasks s) →
     StronglySorted Z.lt (Deadline <$> started)).
Proof.
  intros Hr%reachable_inv Htr.
  destruct (trigger_Ok now s (inv_heap _ Hr))
    as (started & rest & next' & _ & _ & Hperm & Hst & _ & _ & Hsort & Heq).
  rewrite Heq in Htr. simplify_eq. exists started.
  match goal with |- context [send_lenC ?s0] =>
    destruct (send_lenC_fields s0) as (_ & _ & _ & _ & _ & _ & -> & _)
  end.
  simpl. repeat split; try done.
  intros Hnd. apply StronglySorted_le_lt; [done|].
  rewrite Hperm, fmap_app in Hnd. by apply NoDup_app in Hnd as [? _].
Qed.

Lemma trigger_starts_in_deadline_order_witness :
  let s := State None false 1 [Task 10 2; Task 30 1; Task 20 3] (Some 0)
             MReady WNotCalled [] [] [Task 30 1; Task 10 2; Task 20 3] in
  let s' := State None false 3 [Task 30 1] (Some 0)
              MReady WNotCalled [Task 10 2; Task 20 3] []
              [Task 30 1; Task 10 2; Task 20 3] in
  ∃ started,
    running s' = running s ++ started ∧
    Forall (λ t, Deadline t <= 25) started ∧
    StronglySorted Z.le (Deadline <$> started) ∧
    (NoDup (Deadline <$> g_tasks s) →
     StronglySorted Z.lt (Deadline <$> started)).
Proof.
  apply (trigger_starts_in_deadline_order any_use None _ 25 30).
  - exists [LSchedule 30 1; LSchedule 10 2; LSchedule 20 3; LMonCheck].
    reflexivity.
  - reflexivity.
Defined.

(** C8. One iteration of the monitor after [trigger(now)] returned [next]:
    if [next] is not the zero instant the timer is reset to [next.Sub(now)],
    which is [next - now] whenever that fits a [Duration], and the select
    waits on the timer's channel; if [next] is the zero instant the timer is
    stopped and the select has the nil channel in place of the timer's: no
    tick can wake the monitor, only [ctx.Done()] or a signal on [addC]. *)
Theorem monitor_arms_timer s now next :
  monitor s = MArm now next →
  (Time.IsZero next = false →
   step LMonArm s =
   Ok (set_monitor (MSelect true) (set_timer (Some (Time.Sub next now)) s)) ∧
   (Time.minDuration <= next - now <= Time.maxDuration →
    Time.Sub next now = next - now) ∧
   step LMonTick (set_monitor (MSelect true)
                    (set_timer (Some (Time.Sub next now)) s)) =
   Ok (set_monitor MTop (set_timer (Some (Time.Sub next now)) s))) ∧
  (Time.IsZero next = true →
   let s1 := set_monitor (MSelect false) (set_timer None s) in
   step LMonArm s = Ok s1 ∧
   step LMonTick s1 = Disabled ∧
   ∀ l s2, step l s1 = Ok s2 → monitor s2 ≠ monitor s1 →
           (l = LMonWake ∧ g_mctx s1 = true) ∨
           (∃ when fn, l = LSchedule when fn) ∨
           (∃ t delay fn, l = LDelay t delay fn)).
Proof.
  intros Hm. split.
  - intros Hz. split; [|split].
    + simpl. unfold monitor_step. by rewrite Hm, Hz.
    + apply Sub_exact.
    + reflexivity.
  - intros Hz. cbv zeta. split; [|split].
    + simpl. unfold monitor_step. by rewrite Hm, Hz.
    + reflexivity.
    + intros l s2 Hs Hne. destruct l; simpl in Hs;
    try (by apply body_panic_not_Ok in Hs); try done;
        try (right; eauto; fail);
        try (exfalso; apply Hne;
             unfold Wait_step, body_done, wg_Done in Hs; simpl in Hs;
             repeat case_match; by simplify_eq).
      left. split; [reflexivity|]. simpl.
      destruct (g_mctx s); [reflexivity|discriminate].
Qed.

Lemma monitor_arms_timer_witness :
  let s := State None false 1 [Task 10 1] (Some 0) (MArm 4 10) WNotCalled
             [] [] [Task 10 1] in
  reachable any_use None s ∧
  step LMonArm s = Ok (set_monitor (MSelect true) (set_timer (Some 6) s)).
Proof.
  split.
  - exists [LSchedule 10 1; LMonCheck; LMonTrigger 4]. reflexivity.
  - apply (monitor_arms_timer _ 4 10); reflexivity.
Defined.

(** ** Cancellation *)

(** Once [g.ctx] is cancelled while [Wait] is at a place where it will
    consult [g.ctx] next, this remains so until [Wait] returns the error. *)
Lemma ctx_checked_step e s l s' :
  g_ctx s = Some e →
  wait_checks_ctx (waiter s) = true ∨ waiter s = WReturned (Some e) →
  step l s = Ok s' →
  g_ctx s' = Some e ∧
  (wait_checks_ctx (waiter s') = true ∨ waiter s' = WReturned (Some e)).
Proof.
  intros Hc Hw Hs.
  assert (∀ when fn, Schedule when fn s = Ok s' →
                     g_ctx s' = g_ctx s ∧ waiter s' = waiter s) as HS.
  { intros when fn HS. unfold Schedule in HS.
    apply obind_Ok in HS as (h & _ & HS). simplify_eq.
    match goal with |- context [send_addC ?s0] =>
      by destruct (send_addC_fields s0) as (-> & _ & _ & _ & _ & -> & _)
    end. }
  destruct l; simpl in Hs;
    try (by apply body_panic_not_Ok in Hs);
    try (destruct (HS _ _ Hs) as [-> ->]; done);
    try (unfold Wait_step in Hs; rewrite ?Hc in Hs;
         destruct (waiter s); destruct Hw; simplify_eq; simpl; auto; fail);
    try (unfold monitor_step, body_done, wg_Done in Hs;
         repeat case_match; simplify_eq; simpl; auto; fail).
  - unfold monitor_step in Hs. destruct (monitor s); try done.
    apply obind_Ok in Hs as ([next s1] & Htr & Hs). simplify_eq. simpl.
    unfold trigger in Htr.
    apply obind_Ok in Htr as ([[started rest] ret] & _ & Htr). simplify_eq.
    unfold send_lenC. simpl. rewrite Hc.
    assert (∀ s0 : state,
              match waiter s with WParked => s0 | _ => s0 end = s0) as ->
      by (intros; by destruct (waiter s)).
    done.
Qed.

Lemma ctx_checked_run e p tr : ∀ s s',
  g_ctx s = Some e →
  wait_checks_ctx (waiter s) = true ∨ waiter s = WReturned (Some e) →
  run p tr s = Ok s' →
  wait_checks_ctx (waiter s') = true ∨ waiter s' = WReturned (Some e).
Proof.
  intros s s' Hc Hw Hrun.
  eapply (run_invariant
            (λ s, g_ctx s = Some e ∧
                  (wait_checks_ctx (waiter s) = true ∨
                   waiter s = WReturned (Some e)))); [|split; eassumption|done].
  intros s0 l s1 [? ?] _ Hs. by eapply ctx_checked_step.
Qed.

(** C3, as the code has it.  When [g.ctx] is cancelled and [Wait] is at a
    place where it consults [g.ctx] next (not yet called, about to select,
    parked in the select, or holding a count just received), the next step
    of [Wait] returns the context's error and changes nothing else, and no
    execution from there has [Wait] return anything else.  When the
    cancellation precedes the call, that step is the entry test of line 91,
    which does not look at the heap. *)
Theorem Wait_reports_cancellation_when_checked s e :
  g_ctx s = Some e → wait_checks_ctx (waiter s) = true →
  (∃ l, step l s = Ok (set_waiter (WReturned (Some e)) s)) ∧
  (waiter s = WNotCalled →
   step LWaitEnter s = Ok (set_waiter (WReturned (Some e)) s)) ∧
  (∀ p tr s' r, run p tr s = Ok s' → waiter s' = WReturned r → r = Some e).
Proof.
  intros Hc Hw. split; [|split].
  - destruct (waiter s) eqn:Hws; try done.
    + exists LWaitEnter. simpl. unfold Wait_step. by rewrite Hws, Hc.
    + exists LWaitSelect. simpl. unfold Wait_step. by rewrite Hws, Hc.
    + exists LWaitDone. simpl. unfold Wait_step. by rewrite Hws, Hc.
    + exists LWaitAfterRecv. simpl. unfold Wait_step. by rewrite Hws, Hc.
  - intros Hws. simpl. unfold Wait_step. by rewrite Hws, Hc.
  - intros p tr s' r Hrun Hret.
    destruct (ctx_checked_run e p tr s s' Hc (or_introl Hw) Hrun) as [H|H];
      rewrite Hret in H; [done|by simplify_eq].
Qed.

Lemma Wait_reports_cancellation_when_checked_witness :
  let s := New (Some DeadlineExceeded) in
  (∃ l, step l s = Ok (set_waiter (WReturned (Some DeadlineExceeded)) s)) ∧
  (waiter s = WNotCalled →
   step LWaitEnter s = Ok (set_waiter (WReturned (Some DeadlineExceeded)) s)) ∧
  (∀ p tr s' r, run p tr s = Ok s' → waiter s' = WReturned r →
                r = Some DeadlineExceeded).
Proof.
  apply (Wait_reports_cancellation_when_checked
           (New (Some DeadlineExceeded)) DeadlineExceeded); reflexivity.
Defined.

(** C3, as stated, fails: [Wait] tests [g.ctx] on entry (line 91), finds it
    live, the context is cancelled, and [Wait], finding the heap empty,
    returns nil (line 105). *)
Lemma Wait_misses_cancellation_after_last_check :
  ¬ cancellation_always_reported.
Proof.
  intros H.
  specialize (H None [LWaitEnter; LCancel Canceled; LPropagate]
                [LWaitCheckHeap; LWaitCancel; LMonCheck; LWaitWg]
                (State (Some Canceled) true 1 [] (Some 0) MTop WEntered [] [] [])
                (State (Some Canceled) true 0 [] None MExited (WReturned None)
                       [] [] [])
                Canceled None eq_refl eq_refl).
  assert (None = Some Canceled) as Habs; [|discriminate Habs].
  apply H; [intros r'; discriminate|reflexivity|reflexivity].
Qed.

(** ** Every task runs once *)

Lemma inv_no_cancel_step s l s' :
  inv_no_cancel s → no_cancel s l = true → step l s = Ok s' →
  inv_no_cancel s'.
Proof.
  intros [Hc Hw] Hp Hs. unfold inv_no_cancel.
  assert (∀ when fn, Schedule when fn s = Ok s' →
                     g_ctx s' = g_ctx s ∧ waiter s' = waiter s) as HS.
  { intros when fn HS. unfold Schedule in HS.
    apply obind_Ok in HS as (h & _ & HS). simplify_eq.
    match goal with |- context [send_addC ?s0] =>
      by destruct (send_addC_fields s0) as (-> & _ & _ & _ & _ & -> & _)
    end. }
  destruct l; simpl in Hs, Hp;
    try (by apply body_panic_not_Ok in Hs); try done;
    try (destruct (HS _ _ Hs) as [-> ->]; done);
    try (unfold Wait_step in Hs; rewrite ?Hc in Hs;
         destruct (waiter s) eqn:Hws; try done;
         repeat case_match; simplify_eq; simpl; split; done);
    try (unfold monitor_step, body_done, wg_Done in Hs;
         repeat case_match; simplify_eq; simpl; split; done).
  unfold monitor_step in Hs. destruct (monitor s); try done.
  apply obind_Ok in Hs as ([next s1] & Htr & Hs). simplify_eq. simpl.
  unfold trigger in Htr.
  apply obind_Ok in Htr as ([[started rest] ret] & _ & Htr). simplify_eq.
  unfold send_lenC. simpl. rewrite Hc.
  destruct (waiter s) eqn:Hws; simpl; rewrite ?Hws; split; done.
Qed.

Lemma reachable_no_cancel_inv s :
  reachable no_cancel None s → inv_no_cancel s.
Proof.
  apply (reachable_invariant inv_no_cancel); [by split|].
  intros s0 l s1. apply inv_no_cancel_step.
Qed.

Lemma run_cons p l tr s s1 :
  p s l = true → step l s = Ok s1 → run p (l :: tr) s = run p tr s1.
Proof. intros Hp Hs. simpl. by rewrite Hp, Hs. Qed.

Lemma latest_ge ts t : t ∈ ts → Deadline t <= latest ts.
Proof.
  unfold latest. induction ts as [|u ts IH]; [by intros ?%elem_of_nil|].
  rewrite fmap_cons.
  change (foldr Z.max 0 (Deadline u :: (Deadline <$> ts)))
    with (Z.max (Deadline u) (foldr Z.max 0 (Deadline <$> ts))).
  intros [->|Hin]%elem_of_cons; [lia|]. specialize (IH Hin). lia.
Qed.

(** Scheduling the tasks of [ts] one after the other, nothing else
    happening. *)
Lemma run_schedule_all ts : ∀ s,
  heap_ok (g_tasks s) → monitor s = MTop → waiter s = WNotCalled →
  ∃ h, run (both contract no_cancel) (schedule_all ts) s =
       Ok (set_accepted (accepted s ++ ts) (set_tasks h s)) ∧
       heap_ok h ∧ h ≡ₚ ts ++ g_tasks s.
Proof.
  induction ts as [|t ts IH]; intros s Hok Hm Hw.
  { exists (g_tasks s). simpl. rewrite app_nil_r. by destruct s. }
  destruct (Schedule_Ok (Deadline t) (Call t) s Hok)
    as (h1 & _ & Hok1 & Hperm1 & Heq).
  assert (Task (Deadline t) (Call t) = t) as Ht by (by destruct t).
  rewrite Ht in *. clear Ht.
  unfold send_addC in Heq. simpl in Heq. rewrite Hm in Heq.
  destruct (IH (set_accepted (accepted s ++ [t]) (set_tasks h1 s)))
    as (h & Hrun & Hokh & Hperm); [done..|].
  exists h. split; [|split; [done|]].
  - unfold schedule_all. rewrite fmap_cons. fold (schedule_all ts).
    erewrite run_cons; [|unfold both; simpl; by rewrite Hw|exact Heq].
    rewrite Hrun. simpl. by rewrite <- app_assoc.
  - rewrite Hperm. simpl. rewrite Hperm1. solve_Permutation.
Qed.

(** The bodies that are running return one after the other. *)
Lemma run_bodies_done p : ∀ r s,
  (∀ s0, p s0 (LBodyDone 0) = true) →
  running s = r → g_wg s = length r →
  run p (replicate (length r) (LBodyDone 0)) s =
  Ok (set_wg 0 (set_finished (finished s ++ r) (set_running [] s))).
Proof.
  intros r s Hp. revert s.
  induction r as [|t r IH]; intros s Hr Hwg.
  { simpl. rewrite app_nil_r. destruct s. simpl in *. by subst. }
  simpl replicate.
  erewrite run_cons; [|apply Hp|].
  2:{ simpl. unfold body_done, wg_Done. rewrite Hr. simpl. rewrite Hwg.
      simpl. reflexivity. }
  rewrite IH by done. simpl. by rewrite <- app_assoc.
Qed.

(** For every list of tasks there is a use of the Group, respecting the
    contract and without cancellation, in which exactly these tasks are
    scheduled and [Wait] returns nil. *)
Lemma schedule_then_wait_completes ts now :
  latest ts <= now →
  ∃ s, run (both contract no_cancel) (schedule_then_wait ts now) (New None)
       = Ok s ∧
       accepted s = ts ∧ waiter s = WReturned None.
Proof.
  intros Hnow. unfold schedule_then_wait. rewrite run_app.
  destruct (run_schedule_all ts (New None)) as (h & Hrun & Hok & Hperm);
    [done..|].
  rewrite Hrun. simpl in Hperm. rewrite app_nil_r in Hperm.
  cbn [obind]. unfold New. norm_state. cbn [app].
  destruct ts as [|t0 ts'].
  { apply Permutation_nil_r in Hperm as ->. eexists. split; [reflexivity|done]. }
  remember (t0 :: ts') as ts eqn:Hts.
  destruct h as [|x h'] eqn:Hh.
  { symmetry in Hperm. apply Permutation_nil_r in Hperm. by subst. }
  rewrite <- Hh in *.
  erewrite run_cons; [|reflexivity|reflexivity]. norm_state.
  erewrite run_cons; [|reflexivity|].
  2:{ simpl. unfold Wait_step. simpl. rewrite Hh. simpl. rewrite <- Hh.
      reflexivity. }
  norm_state.
  erewrite run_cons; [|reflexivity|reflexivity]. norm_state.
  erewrite run_cons; [|reflexivity|reflexivity]. norm_state.
  match goal with |- context [run _ (LMonTrigger now :: _) ?s4] =>
    destruct (trigger_Ok now s4 Hok)
      as (started & rest & next & _ & _ & Hp & _ & Hrest & Hnext & _ & Heq)
  end.
  simpl in Hp.
  assert (rest = []) as ->.
  { destruct rest as [|u rest]; [done|]. exfalso.
    apply Forall_cons in Hrest as [Hu _].
    assert (u ∈ ts) as Hin.
    { rewrite <- Hperm, Hp. apply elem_of_app. right. by left. }
    apply latest_ge in Hin. lia. }
  subst next. rewrite app_nil_r in Hp.
  unfold send_lenC in Heq. norm_state_in Heq. cbn [Nat.add app] in Heq.
  erewrite run_cons; [|reflexivity|].
  2:{ simpl. unfold monitor_step. simpl. rewrite Heq. reflexivity. }
  norm_state.
  erewrite run_cons; [|reflexivity|reflexivity]. norm_state.
  erewrite run_cons; [|reflexivity|reflexivity]. norm_state.
  erewrite run_cons; [|reflexivity|reflexivity]. norm_state.
  erewrite run_cons; [|reflexivity|reflexivity]. norm_state.
  erewrite run_cons; [|reflexivity|reflexivity]. norm_state.
  assert (length ts = length started) as -> by (by rewrite <- Hperm, Hp).
  rewrite run_app.
  erewrite (run_bodies_done _ started); [|done|reflexivity|reflexivity].
  norm_state. cbn [obind app].
  eexists. split; [reflexivity|done].
Qed.

(** Conservation of tasks.  A task that [Schedule] accepted is at any time
    in exactly one place: on the heap, running, or finished; it is started
    at most once.  When the contract is respected and the context is never
    cancelled, [Wait] can only return nil, and then exactly the tasks that
    were scheduled have run, each once; and for every list of tasks there is
    such a use of the Group in which they are scheduled and [Wait] returns. *)
Theorem each_task_runs_once :
  (∀ p ctx s, reachable p ctx s →
              accepted s ≡ₚ g_tasks s ++ running s ++ finished s) ∧
  (∀ s r, reachable (both contract no_cancel) None s →
          waiter s = WReturned r →
          r = None ∧ g_tasks s = [] ∧ running s = [] ∧
          finished s ≡ₚ accepted s ∧
          length (finished s) = length (accepted s)) ∧
  (∀ ts now, latest ts <= now →
             ∃ s, run (both contract no_cancel) (schedule_then_wait ts now)
                    (New None) = Ok s ∧
                  accepted s = ts ∧ waiter s = WReturned None).
Proof.
  split; [|split].
  - intros p ctx s Hr%reachable_inv. apply Hr.
  - intros s r Hr Hret.
    pose proof (reachable_no_cancel_inv _ (reachable_both_r _ _ _ _ Hr))
      as [_ Hnc].
    assert (r = None) as -> by (destruct r as [e|]; [by destruct (Hnc e)|done]).
    destruct (contract_Wait_success None s (reachable_both_l _ _ _ _ Hr) Hret)
      as (Ht & Hrun & _ & _ & Hperm).
    repeat split; try done. by rewrite Hperm.
  - apply schedule_then_wait_completes.
Qed.

(** ** Lost wake-ups

    The two non-blocking sends reach their receiver only when it is already
    parked in its select.  A signal sent a moment earlier is dropped, and
    nothing sends it again. *)

(** C7, the part that the code does not keep.  The monitor finishes a pass
    of [trigger] on the empty heap (line 149); [Schedule] pushes a task and
    its signal on [addC] is dropped, the monitor being at line 150; the
    monitor stops its timer and parks with a nil [tickC]; [Wait] finds the
    heap non-empty and parks on [lenC].  The contract is respected and the
    context is never cancelled, yet no step is possible any more: the task
    stays on the heap, its body never runs and [Wait] never returns. *)
Theorem scheduled_task_may_never_run :
  let s := State None false 1 [Task 10 1] None (MSelect false) WParked
             [] [] [Task 10 1] in
  run (both contract no_cancel)
      [LMonCheck; LMonTrigger 0; LSchedule 10 1; LMonArm;
       LWaitEnter; LWaitCheckHeap; LWaitSelect] (New None) = Ok s ∧
  (∀ l, both contract no_cancel s l = true → step l s = Disabled) ∧
  (∀ tr s', run (both contract no_cancel) tr s = Ok s' →
            g_tasks s' = [Task 10 1] ∧ running s' = [] ∧ finished s' = [] ∧
            waiter s' = WParked).
Proof.
  cbv zeta. split; [reflexivity|].
  assert (∀ l, both contract no_cancel
                 (State None false 1 [Task 10 1] None (MSelect false) WParked
                    [] [] [Task 10 1]) l = true →
               step l (State None false 1 [Task 10 1] None (MSelect false)
                         WParked [] [] [Task 10 1]) = Disabled) as Hstuck.
  { intros l Hp. destruct l; try reflexivity; try discriminate Hp. }
  split; [exact Hstuck|].
  intros tr s' Hrun. destruct tr as [|l tr]; simpl in Hrun.
  - by simplify_eq.
  - destruct (both contract no_cancel _ l) eqn:Hp; [|done].
    by rewrite (Hstuck l Hp) in Hrun.
Qed.

(** The count sent on [lenC] can be lost in the same way: [Wait] has left
    the critical section of lines 96-107 and is not yet in its select when
    the monitor dispatches the last task and sends the count 0.  The body
    runs and returns, but [Wait] stays parked. *)
Lemma Wait_may_miss_the_last_count :
  let s := State None false 1 [] None (MSelect false) WParked
             [] [Task 10 1] [Task 10 1] in
  run (both contract no_cancel)
      [LSchedule 10 1; LWaitEnter; LWaitCheckHeap; LMonCheck; LMonTrigger 10;
       LMonArm; LWaitSelect; LBodyDone 0] (New None) = Ok s ∧
  ∀ l, both contract no_cancel s l = true → step l s = Disabled.
Proof.
  split; [reflexivity|].
  intros l Hp. destruct l; try reflexivity; try discriminate Hp.
Qed.

(** ** Scenarios

    The concrete scenarios of the specification, each as one execution. *)

(** Immediate fire: a task whose deadline is already past is started by
    the next pass of the monitor; [Wait] returns nil and the body ran
    once. *)
Example scenario_immediate_fire :
  run contract
      [LDelay 1000 (-1) 7; LWaitEnter; LWaitCheckHeap; LWaitSelect; LMonCheck;
       LMonTrigger 1000; LMonArm; LWaitAfterRecv; LWaitCancel; LMonWake;
       LMonCheck; LBodyDone 0; LWaitWg] (New None)
  = Ok (State None true 0 [] None MExited (WReturned None) []
          [Task 999 7] [Task 999 7]).
Proof. reflexivity. Qed.

(** Ordered firing: A at 30 and B at 10 are scheduled in this order; B is
    started by the pass at 10, A by the pass at 30. *)
Example scenario_ordered_firing :
  run contract
      [LSchedule 30 1; LSchedule 10 2; LMonCheck; LMonTrigger 0; LMonArm;
       LWaitEnter; LWaitCheckHeap; LWaitSelect;
       LMonTick; LMonCheck; LMonTrigger 10; LMonArm; LWaitAfterRecv;
       LWaitSelect;
       LMonTick; LMonCheck; LMonTrigger 30; LMonArm; LWaitAfterRecv;
       LWaitCancel; LMonWake; LMonCheck;
       LBodyDone 0; LBodyDone 0; LWaitWg] (New None)
  = Ok (State None true 0 [] None MExited (WReturned None) []
          [Task 10 2; Task 30 1] [Task 30 1; Task 10 2]).
Proof. reflexivity. Qed.

(** Cancellation mid-flight: A at 100 has run, B at 10000 is abandoned on
    the heap, [Wait] returns the error of the context. *)
Example scenario_cancellation_mid_flight :
  run contract
      [LSchedule 100 1; LSchedule 10000 2; LMonCheck; LMonTrigger 0; LMonArm;
       LWaitEnter; LWaitCheckHeap; LWaitSelect;
       LMonTick; LMonCheck; LMonTrigger 100; LMonArm; LWaitAfterRecv;
       LWaitSelect; LBodyDone 0;
       LCancel DeadlineExceeded; LPropagate; LWaitDone; LMonWake; LMonCheck]
      (New None)
  = Ok (State (Some DeadlineExceeded) true 0 [Task 10000 2] None MExited
          (WReturned (Some DeadlineExceeded)) []
          [Task 100 1] [Task 100 1; Task 10000 2]).
Proof. reflexivity. Qed.

(** Empty group: [Wait] on a Group without tasks returns nil at once. *)
Example scenario_empty_group :
  run contract [LWaitEnter; LWaitCheckHeap; LWaitCancel; LMonCheck; LWaitWg]
      (New None)
  = Ok (State None true 0 [] None MExited (WReturned None) [] [] []).
Proof. reflexivity. Qed.

(** * Further properties *)

(** ** Panics and the wait counter *)

(** X1. The only panic of a Group is the panic of a task body.  The
    Group's own code never panics: [heap.Pop] is only called on a non-empty
    heap, the heap code stays within the slice, and [g.wg.Done()] is never
    called on a zero counter.  A body that was started may panic at any
    moment ([t.Call()], line 206, is not guarded and a nil [func()] is
    accepted by [Schedule]); a body that is not running cannot. *)
Theorem only_task_bodies_panic p ctx s l :
  reachable p ctx s →
  step l s = Panic ↔ ∃ i t, l = LBodyPanic i ∧ running s !! i = Some t.
Proof.
  intros Hr%reachable_inv. split.
  - by apply step_panic_is_body_panic.
  - intros (i & t & -> & Hi). simpl. unfold body_panic. by rewrite Hi.
Qed.

Lemma only_task_bodies_panic_witness :
  step (LBodyPanic 0)
       (State None false 2 [Task 30 1] (Some 0) (MArm 25 30) WNotCalled
          [Task 10 2] [] [Task 30 1; Task 10 2]) = Panic ↔
  ∃ i t, LBodyPanic 0 = LBodyPanic i ∧ [Task 10 2] !! i = Some t.
Proof.
  apply (only_task_bodies_panic any_use None).
  exists [LSchedule 30 1; LSchedule 10 2; LMonCheck; LMonTrigger 25].
  reflexivity.
Defined.

(** X2. The counter of [g.wg] is one for the monitor goroutine while it has
    not returned, plus one for each task body that was started and has not
    returned.  It is zero exactly when the monitor has exited and no body is
    running. *)
Theorem wg_counts_monitor_and_bodies p ctx s :
  reachable p ctx s →
  g_wg s = (monitor_count (monitor s) + length (running s))%nat ∧
  (g_wg s = 0%nat ↔ monitor s = MExited ∧ running s = []).
Proof.
  intros [_ _ Hw _]%reachable_inv. split; [done|]. rewrite Hw. split.
  - intros H0. destruct (monitor s); simpl in H0; try lia.
    split; [done|]. destruct (running s); [done|simpl in H0; lia].
  - by intros [-> ->].
Qed.

Lemma wg_counts_monitor_and_bodies_witness :
  let s := State None false 3 [Task 30 1] (Some 0) (MArm 25 30) WNotCalled
             [Task 10 2; Task 20 3] [] [Task 30 1; Task 10 2; Task 20 3] in
  g_wg s = (monitor_count (monitor s) + length (running s))%nat ∧
  (g_wg s = 0%nat ↔ monitor s = MExited ∧ running s = []).
Proof.
  apply (wg_counts_monitor_and_bodies any_use None).
  exists [LSchedule 30 1; LSchedule 10 2; LSchedule 20 3; LMonCheck;
          LMonTrigger 25].
  reflexivity.
Defined.

(** ** The monitor, its timer and the result of [Wait] *)

Lemma Sub_pos t u : u < t → 0 < Time.Sub t u.
Proof.
  intros Hlt. unfold Time.Sub, Time.maxDuration, Time.minDuration.
  destruct (Z.ltb_spec (2 ^ 63 - 1) (t - u)); [lia|].
  destruct (Z.ltb_spec (t - u) (- 2 ^ 63)); lia.
Qed.

Lemma inv_monitor_New ctx : inv_monitor (New ctx).
Proof. split; simpl; try done. by intros [|]. Qed.

Lemma inv_monitor_frame s s' :
  inv_monitor s →
  monitor s' = monitor s ∨ monitor s' = MTop ∨ monitor s' = MReady →
  timer s' = timer s →
  (g_mctx s = true → g_mctx s' = true) →
  (∀ e, waiter s' = WReturned (Some e) → g_ctx s' = Some e) →
  (waiter s' = WWg ∨ waiter s' = WReturned None → g_mctx s' = true) →
  inv_monitor s'.
Proof.
  intros [Ha Ht Hn He Her Hc] Hm Htm Hg Her' Hc'.
  split; [| | | |done|done]; rewrite ?Htm;
    destruct Hm as [->|[-> | ->]]; try done.
  intros Hm. destruct (He Hm). auto.
Qed.

Lemma inv_monitor_step s l s' :
  inv s → inv_monitor s → step l s = Ok s' → inv_monitor s'.
Proof.
  intros Hinv Hm Hs.
  pose proof Hm as [Ha Ht Hn He Her Hc].
  assert (∀ s0, g_ctx (send_lenC s0) = g_ctx s0 ∧
                g_mctx (send_lenC s0) = g_mctx s0 ∧
                (waiter (send_lenC s0) = waiter s0 ∨
                 ∃ n, waiter (send_lenC s0) = WRecvd n)) as Hsend.
  { intros s0. unfold send_lenC.
    destruct (waiter s0) eqn:Hw0; try (by auto);
      destruct (g_ctx s0) eqn:Hc0; simpl; eauto. }
  assert (∀ when fn, Schedule when fn s = Ok s' → inv_monitor s') as HS.
  { intros when fn HS.
    destruct (Schedule_Ok when fn s (inv_heap _ Hinv)) as (h & _ & _ & _ & Heq).
    rewrite Heq in HS. simplify_eq.
    match goal with |- inv_monitor (send_addC ?s0) =>
      destruct (send_addC_fields s0)
        as (Hf1 & Hf2 & _ & _ & Hf3 & Hf4 & _ & _ & _ & _);
      assert (monitor (send_addC s0) = monitor s0 ∨
              monitor (send_addC s0) = MTop) as Hf5
        by (unfold send_addC; destruct (monitor s0) eqn:?; auto;
            destruct (g_mctx s0) eqn:?; simpl; auto)
    end.
    apply (inv_monitor_frame s); rewrite ?Hf1, ?Hf2, ?Hf3, ?Hf4; try done.
    destruct Hf5 as [->| ->]; auto. }
  destruct l; simpl in Hs;
    try (by apply body_panic_not_Ok in Hs); try (by eapply HS).
  - destruct (g_ctx s) eqn:Hctx; simplify_eq.
    apply (inv_monitor_frame s); simpl; auto;
      try apply (invm_err _ Hm); try apply (invm_cancel _ Hm).
    intros e' Hw. specialize (Her e' Hw). congruence.
  - destruct (g_ctx s) eqn:Hctx; simplify_eq.
    apply (inv_monitor_frame s); simpl; auto;
      try apply (invm_err _ Hm); try apply (invm_cancel _ Hm).
  - unfold Wait_step in Hs. destruct (waiter s) eqn:Hw; try done.
    destruct (g_ctx s) eqn:Hctx; simplify_eq;
      apply (inv_monitor_frame s); simpl; auto;
      try apply (invm_err _ Hm); try apply (invm_cancel _ Hm);
      try (by intros [|]); try done; by intros ? [= ->].
  - unfold Wait_step in Hs. destruct (waiter s) eqn:Hw; try done.
    case_decide; simplify_eq;
      apply (inv_monitor_frame s); simpl; auto;
      try apply (invm_err _ Hm); try apply (invm_cancel _ Hm); try done; by intros [|].
  - unfold Wait_step in Hs. destruct (waiter s) eqn:Hw; try done.
    destruct (g_ctx s) eqn:Hctx; simplify_eq;
      apply (inv_monitor_frame s); simpl; auto;
      try apply (invm_err _ Hm); try apply (invm_cancel _ Hm);
      try (by intros [|]); try done; by intros ? [= ->].
  - unfold Wait_step in Hs. destruct (waiter s) eqn:Hw; try done.
    destruct (g_ctx s) eqn:Hctx; simplify_eq;
      apply (inv_monitor_frame s); simpl; auto;
      try apply (invm_err _ Hm); try apply (invm_cancel _ Hm);
      try (by intros [|]); try done; by intros ? [= ->].
  - unfold Wait_step in Hs. destruct (waiter s) eqn:Hw; try done.
    destruct (g_ctx s) eqn:Hctx; [|case_decide]; simplify_eq;
      apply (inv_monitor_frame s); simpl; auto;
      try apply (invm_err _ Hm); try apply (invm_cancel _ Hm);
      try (by intros [|]); try done; by intros ? [= ->].
  - unfold Wait_step in Hs. destruct (waiter s) eqn:Hw; try done.
    simplify_eq. apply (inv_monitor_frame s); simpl; auto;
      try apply (invm_err _ Hm); try apply (invm_cancel _ Hm); done.
  - unfold Wait_step in Hs. destruct (waiter s) eqn:Hw; try done.
    case_decide; simplify_eq.
    apply (inv_monitor_frame s); simpl; auto;
      try apply (invm_err _ Hm); try apply (invm_cancel _ Hm); try done.
    all: intros _; apply Hc; by left.
  - unfold monitor_step, wg_Done in Hs. destruct (monitor s) eqn:Hmon; try done.
    destruct (g_mctx s) eqn:Hg; simpl in Hs.
    + destruct (g_wg s); simplify_eq. split; simpl; try done.
    + simplify_eq. apply (inv_monitor_frame s); simpl; auto;
      try apply (invm_err _ Hm); try apply (invm_cancel _ Hm).
  - unfold monitor_step in Hs. destruct (monitor s) eqn:Hmon; try done.
    apply obind_Ok in Hs as ([next s1] & Htr & Hs). simplify_eq.
    destruct (trigger_Ok now s (inv_heap _ Hinv))
      as (started & rest & next' & _ & _ & _ & _ & Hrest & Hnext & _ & Heq).
    rewrite Heq in Htr. simplify_eq.
    match goal with |- inv_monitor (set_monitor _ (send_lenC ?s0)) =>
      destruct (Hsend s0) as (Hc1 & Hc2 & Hc3)
    end.
    split; simpl; rewrite ?Hc1, ?Hc2; simpl; try done.
    + intros now0 next0 [= <- <-]. destruct rest as [|r rest]; [by left|].
      right. by apply Forall_cons in Hrest as [? _].
    + intros e Hw. destruct Hc3 as [Hc3|[n Hc3]]; rewrite Hc3 in Hw;
        [by apply Her|done].
    + intros Hw. apply Hc.
      destruct Hc3 as [Hc3|[n Hc3]]; rewrite Hc3 in Hw; [done|].
      by destruct Hw.
  - unfold monitor_step in Hs. destruct (monitor s) eqn:Hmon; try done.
    destruct (Time.IsZero next) eqn:Hz; simpl in Hs; simplify_eq;
      split; simpl; try done.
    intros _. eexists. split; [done|]. apply Sub_pos.
    destruct (Ha _ _ eq_refl) as [->|]; done.
  - unfold monitor_step in Hs. destruct (monitor s) eqn:Hmon; try done.
    destruct (g_mctx s); simplify_eq.
    apply (inv_monitor_frame s); simpl; auto;
      try apply (invm_err _ Hm); try apply (invm_cancel _ Hm).
  - unfold monitor_step in Hs.
    destruct (monitor s) as [| | | [|] |] eqn:Hmon; try done.
    simplify_eq. apply (inv_monitor_frame s); simpl; auto;
      try apply (invm_err _ Hm); try apply (invm_cancel _ Hm).
  - unfold body_done, wg_Done in Hs.
    destruct (running s !! i); [|done]. simpl in Hs.
    destruct (g_wg s); simplify_eq.
    apply (inv_monitor_frame s); simpl; auto;
      try apply (invm_err _ Hm); try apply (invm_cancel _ Hm).
Qed.

Lemma reachable_inv_monitor p ctx s : reachable p ctx s → inv s ∧ inv_monitor s.
Proof.
  apply (reachable_invariant (λ s, inv s ∧ inv_monitor s)).
  - split; [apply inv_New|apply inv_monitor_New].
  - intros s0 l s1 [Hinv Hm] _ Hstep.
    split; [by eapply inv_step|by eapply inv_monitor_step].
Qed.

(** X3. The timer follows the monitor: while the monitor is parked with the
    timer's channel in its select the timer is armed, for a positive
    duration; while it is parked with the nil channel, and after it has
    returned, the timer is stopped.  The instant that [trigger] returned to
    the monitor is the zero instant or an instant after the clock reading of
    that pass. *)
Theorem timer_follows_monitor p ctx s :
  reachable p ctx s →
  (monitor s = MSelect true → ∃ d, timer s = Some d ∧ 0 < d) ∧
  (monitor s = MSelect false → timer s = None) ∧
  (monitor s = MExited → timer s = None) ∧
  (∀ now next, monitor s = MArm now next → next = Time.zero ∨ now < next).
Proof.
  intros [_ [Ha Ht Hn He _ _]]%reachable_inv_monitor.
  repeat split; try done. intros Hm. by destruct (He Hm).
Qed.

Lemma timer_follows_monitor_witness :
  let s := State None false 1 [Task 10 1] (Some 6) (MSelect true) WNotCalled
             [] [] [Task 10 1] in
  (monitor s = MSelect true → ∃ d, timer s = Some d ∧ 0 < d) ∧
  (monitor s = MSelect false → timer s = None) ∧
  (monitor s = MExited → timer s = None) ∧
  (∀ now next, monitor s = MArm now next → next = Time.zero ∨ now < next).
Proof.
  apply (timer_follows_monitor any_use None).
  exists [LSchedule 10 1; LMonCheck; LMonTrigger 4; LMonArm]. reflexivity.
Defined.

(** X4. What [Wait] returns.  A non-nil error is the error of the context
    given to [New], which is cancelled.  After a nil return [g.cancel] has
    run, the monitor goroutine has returned, its timer is stopped and no
    body is running: the Group leaves nothing behind. *)
Theorem Wait_result_is_sound p ctx s :
  reachable p ctx s →
  (∀ e, waiter s = WReturned (Some e) → g_ctx s = Some e) ∧
  (waiter s = WReturned None →
   g_mctx s = true ∧ monitor s = MExited ∧ timer s = None ∧ running s = [] ∧
   g_wg s = 0%nat).
Proof.
  intros Hr. destruct (reachable_inv_monitor _ _ _ Hr) as [_ [_ _ _ He Her Hc]].
  split; [done|]. intros Hret.
  destruct (Wait_success_bodies_done _ _ _ Hr Hret) as (Hwg & Hrun & Hmon).
  destruct (He Hmon). auto.
Qed.

Lemma Wait_result_is_sound_witness :
  let s := State (Some DeadlineExceeded) true 0 [Task 10000 2] None MExited
             (WReturned (Some DeadlineExceeded)) []
             [Task 100 1] [Task 100 1; Task 10000 2] in
  (∀ e, waiter s = WReturned (Some e) → g_ctx s = Some e) ∧
  (waiter s = WReturned None →
   g_mctx s = true ∧ monitor s = MExited ∧ timer s = None ∧ running s = [] ∧
   g_wg s = 0%nat).
Proof.
  apply (Wait_result_is_sound any_use None).
  exists [LSchedule 100 1; LSchedule 10000 2; LMonCheck; LMonTrigger 0; LMonArm;
          LWaitEnter; LWaitCheckHeap; LWaitSelect;
          LMonTick; LMonCheck; LMonTrigger 100; LMonArm; LWaitAfterRecv;
          LWaitSelect; LBodyDone 0;
          LCancel DeadlineExceeded; LPropagate; LWaitDone; LMonWake; LMonCheck].
  reflexivity.
Defined.

(** From wherever the monitor is, at most four of its own steps take it
    out of [monitor] once the derived context is done; a dispatch pass on
    the way may read any instant [now] from the clock. *)
Lemma monitor_can_exit p ctx s (now : Time.Time) :
  reachable p ctx s → g_mctx s = true → monitor s ≠ MExited →
  ∃ tr s', (length tr ≤ 4)%nat ∧
           Forall (λ l, is_monitor_label l = true) tr ∧
           run any_use tr s = Ok s' ∧
           monitor s' = MExited ∧ timer s' = None ∧
           Forall (λ l, ∀ t, l = LMonTrigger t → t = now) tr ∧
           (monitor s = MReady → head tr = Some (LMonTrigger now)).
Proof.
  intros Hr Hg Hne. destruct (reachable_inv _ _ _ Hr) as [Hh _ Hw _].
  assert (∀ s0, g_mctx s0 = true → monitor s0 = MTop → g_wg s0 ≠ 0%nat →
                ∃ s1, run any_use [LMonCheck] s0 = Ok s1 ∧
                      monitor s1 = MExited ∧ timer s1 = None) as Htop.
  { intros s0 Hg0 Hm0 Hw0. simpl. unfold monitor_step, wg_Done.
    rewrite Hm0, Hg0. simpl. destruct (g_wg s0); [done|]. simpl. eauto. }
  assert (∀ s0 b, g_mctx s0 = true → monitor s0 = MSelect b → g_wg s0 ≠ 0%nat →
                  ∃ s1, run any_use [LMonWake; LMonCheck] s0 = Ok s1 ∧
                        monitor s1 = MExited ∧ timer s1 = None) as Hsel.
  { intros s0 b Hg0 Hm0 Hw0.
    erewrite run_cons; [|done|].
    2:{ simpl. unfold monitor_step. by rewrite Hm0, Hg0. }
    apply Htop; done. }
  assert (∀ s0 t n, g_mctx s0 = true → monitor s0 = MArm t n →
                    g_wg s0 ≠ 0%nat →
                    ∃ s1, run any_use [LMonArm; LMonWake; LMonCheck] s0 = Ok s1 ∧
                          monitor s1 = MExited ∧ timer s1 = None) as Harm.
  { intros s0 t n Hg0 Hm0 Hw0.
    destruct (Time.IsZero n) eqn:Hz.
    - erewrite run_cons; [|done|].
      2:{ simpl. unfold monitor_step. by rewrite Hm0, Hz. }
      by eapply Hsel.
    - erewrite run_cons; [|done|].
      2:{ simpl. unfold monitor_step. by rewrite Hm0, Hz. }
      by eapply Hsel. }
  destruct (monitor s) eqn:Hm; [| | | |done].
  - destruct (Htop s) as (s1 & ? & ? & ?); [done|done|rewrite Hw; simpl; lia|].
    exists [LMonCheck], s1.
    repeat split; auto; try (simpl; lia); try done;
      repeat constructor; intros t' Ht'; by simplify_eq.
  - destruct (trigger_Ok now s Hh)
      as (started & rest & next & _ & _ & _ & _ & _ & _ & _ & Heq).
    match type of Heq with _ = Ok (_, ?s0) =>
      destruct (Harm (set_monitor (MArm now next) s0) now next)
        as (s1 & Hrun & ? & ?)
    end.
    + simpl.
      by destruct (send_lenC_fields
                     (set_running (running s ++ started)
                        (set_wg (g_wg s + length started) (set_tasks rest s))))
        as (_ & -> & _).
    + done.
    + simpl.
      destruct (send_lenC_fields
                  (set_running (running s ++ started)
                     (set_wg (g_wg s + length started) (set_tasks rest s))))
        as (_ & _ & -> & _).
      simpl. rewrite Hw. simpl. lia.
    + exists [LMonTrigger now; LMonArm; LMonWake; LMonCheck], s1.
      repeat split; auto;
        [|repeat constructor; intros t' Ht'; by simplify_eq].
      erewrite run_cons; [exact Hrun|done|].
      simpl. unfold monitor_step. rewrite Hm, Heq. done.
  - destruct (Harm s now0 next) as (s1 & ? & ? & ?);
      [done|done|rewrite Hw; simpl; lia|].
    exists [LMonArm; LMonWake; LMonCheck], s1.
    repeat split; auto; try (simpl; lia); try done;
      repeat constructor; intros t' Ht'; by simplify_eq.
  - destruct (Hsel s tickC) as (s1 & ? & ? & ?);
      [done|done|rewrite Hw; simpl; lia|].
    exists [LMonWake; LMonCheck], s1.
    repeat split; auto; try (simpl; lia); try done;
      repeat constructor; intros t' Ht'; by simplify_eq.
Qed.

(** X5. Once the derived context is done the monitor returns after at most
    one more pass: from wherever it is, at most four of its own steps take
    it out of [monitor], stopping the timer.  This is so whatever the clock
    reads: for every instant [now] there is such an exit in which each
    dispatch pass ([trigger], lines 147-149) reads [now], and a monitor
    that is about to make a pass makes it at [now] first. *)
Theorem monitor_exits_after_cancel p ctx s (now : Time.Time) :
  reachable p ctx s → g_mctx s = true → monitor s ≠ MExited →
  ∃ tr s', (length tr ≤ 4)%nat ∧
           Forall (λ l, is_monitor_label l = true) tr ∧
           run any_use tr s = Ok s' ∧
           monitor s' = MExited ∧ timer s' = None ∧
           Forall (λ l, ∀ t, l = LMonTrigger t → t = now) tr ∧
           (monitor s = MReady → head tr = Some (LMonTrigger now)).
Proof. exact (monitor_can_exit p ctx s now). Qed.

Lemma monitor_exits_after_cancel_witness :
  let s := State (Some Canceled) true 1 [Task 10 1] (Some 0) MReady
             WNotCalled [] [] [Task 10 1] in
  ∃ tr s', (length tr ≤ 4)%nat ∧
           Forall (λ l, is_monitor_label l = true) tr ∧
           run any_use tr s = Ok s' ∧
           monitor s' = MExited ∧ timer s' = None ∧
           Forall (λ l, ∀ t, l = LMonTrigger t → t = 20) tr ∧
           (monitor s = MReady → head tr = Some (LMonTrigger 20)).
Proof.
  intros s. apply (monitor_exits_after_cancel any_use None s 20).
  - exists [LSchedule 10 1; LMonCheck; LCancel Canceled; LPropagate].
    reflexivity.
  - reflexivity.
  - discriminate.
Defined.

(** X6. Once the monitor has returned nothing is started any more: in every
    continuation the tasks on the heap stay there (and [Schedule] still adds
    to them), and the bodies running or finished remain those that were. *)
Theorem heap_is_abandoned_after_monitor_exit p ctx q s tr s' :
  reachable p ctx s → monitor s = MExited → run q tr s = Ok s' →
  monitor s' = MExited ∧
  running s' ++ finished s' ≡ₚ running s ++ finished s ∧
  (∀ t, t ∈ g_tasks s → t ∈ g_tasks s').
Proof. intros Hr%reachable_inv. by apply monitor_exited_frame. Qed.

Lemma heap_is_abandoned_after_monitor_exit_witness :
  let s := State (Some Canceled) true 1 [Task 50 2] None MExited WNotCalled
             [Task 10 1] [] [Task 10 1; Task 50 2] in
  let s' := State (Some Canceled) true 0 [Task 50 2; Task 60 3] None MExited
              WNotCalled [] [Task 10 1] [Task 10 1; Task 50 2; Task 60 3] in
  monitor s' = MExited ∧
  running s' ++ finished s' ≡ₚ running s ++ finished s ∧
  (∀ t, t ∈ g_tasks s → t ∈ g_tasks s').
Proof.
  apply (heap_is_abandoned_after_monitor_exit any_use None any_use _
           [LSchedule 60 3; LBodyDone 0]).
  - exists [LSchedule 10 1; LSchedule 50 2; LMonCheck; LMonTrigger 20;
            LCancel Canceled; LPropagate; LMonArm; LMonWake; LMonCheck].
    reflexivity.
  - reflexivity.
  - reflexivity.
Defined.

(** ** More on [trigger] and the heap *)

(** Two splits of a list, each into the elements that satisfy a test and
    those that do not, agree up to the order. *)
Lemma partition_unique (P : task → Prop) `{∀ t, Decision (P t)}
    (h a b a' b' : tasks) :
  h ≡ₚ a ++ b → h ≡ₚ a' ++ b' →
  Forall P a → Forall (λ t, ¬ P t) b →
  Forall P a' → Forall (λ t, ¬ P t) b' →
  a ≡ₚ a' ∧ b ≡ₚ b'.
Proof.
  intros Hab Hab' Ha Hb Ha' Hb'.
  assert (∀ l, Forall P l → filter P l = l) as Hid.
  { induction 1 as [|x l Hx _ IH]; [done|].
    rewrite filter_cons_True by done. by rewrite IH. }
  assert (∀ l, Forall (λ t, ¬ P t) l → filter P l = []) as Hno.
  { induction 1 as [|x l Hx _ IH]; [done|].
    by rewrite filter_cons_False. }
  assert (∀ l, Forall (λ t, ¬ P t) l → filter (λ t, ¬ P t) l = l) as Hid'.
  { induction 1 as [|x l Hx _ IH]; [done|].
    rewrite filter_cons_True by done. by rewrite IH. }
  assert (∀ l, Forall P l → filter (λ t, ¬ P t) l = []) as Hno'.
  { induction 1 as [|x l Hx _ IH]; [done|].
    rewrite filter_cons_False; [done|]. by intros Hn. }
  split.
  - rewrite <- (Hid a Ha), <- (Hid a' Ha').
    rewrite <- (app_nil_r (filter P a)), <- (app_nil_r (filter P a')).
    rewrite <- (Hno b Hb) at 1. rewrite <- (Hno b' Hb').
    rewrite <- !filter_app. by rewrite <- Hab, <- Hab'.
  - rewrite <- (Hid' b Hb), <- (Hid' b' Hb').
    change (filter (λ t, ¬ P t) b) with ([] ++ filter (λ t, ¬ P t) b).
    change (filter (λ t, ¬ P t) b') with ([] ++ filter (λ t, ¬ P t) b').
    rewrite <- (Hno' a Ha) at 1. rewrite <- (Hno' a' Ha').
    rewrite <- !filter_app. by rewrite <- Hab, <- Hab'.
Qed.

(** The instant that [trigger] returns depends only on which tasks are
    left. *)
Lemma root_deadline_perm (h h' : tasks) :
  heap_ok h → heap_ok h' → h ≡ₚ h' →
  match h with [] => Time.zero | r :: _ => Deadline r end =
  match h' with [] => Time.zero | r :: _ => Deadline r end.
Proof.
  intros Hok Hok' Hp. destruct h as [|r h], h' as [|r' h']; [done| | |].
  - by apply Permutation_nil_cons in Hp.
  - symmetry in Hp. by apply Permutation_nil_cons in Hp.
  - assert (Deadline r <= Deadline r').
    { apply (heap_ok_root_min (r :: h) r r' Hok); [done|].
      rewrite Hp. by left. }
    assert (Deadline r' <= Deadline r).
    { apply (heap_ok_root_min (r' :: h') r' r Hok'); [done|].
      rewrite <- Hp. by left. }
    lia.
Qed.

(** X7. Passes of [trigger] compose.  A second pass at the same instant
    starts nothing and returns the same instant.  A pass at [now1] followed
    by a pass at a later [now2] starts the same tasks, leaves the same tasks
    and returns the same instant as a single pass at [now2]. *)
Theorem trigger_passes_compose h now1 now2 st1 r1 n1 :
  heap_ok h → now1 <= now2 →
  trigger_pass now1 h = Some (st1, r1, n1) →
  trigger_pass now1 r1 = Some ([], r1, n1) ∧
  ∃ st2 r2 n2 st r,
    trigger_pass now2 r1 = Some (st2, r2, n2) ∧
    trigger_pass now2 h = Some (st, r, n2) ∧
    st1 ++ st2 ≡ₚ st ∧ r2 ≡ₚ r.
Proof.
  intros Hok Hle Hp1.
  destruct (trigger_pass_spec now1 h Hok)
    as (a & b & c & Hp1' & Hok1 & Hperm1 & Hst1 & Hr1 & Hn1 & _).
  assert (a = st1 ∧ b = r1 ∧ c = n1) as (-> & -> & ->)
    by (rewrite Hp1 in Hp1'; by simplify_eq).
  clear Hp1'. split.
  - unfold trigger_pass. simpl. unfold Len. case_decide as Hlen.
    + apply length_zero_iff_nil in Hlen. by subst.
    + destruct r1 as [|r r1]; [done|]. simpl.
      apply Forall_cons in Hr1 as [Hr _].
      apply After_lt in Hr. rewrite Hr. by subst.
  - destruct (trigger_pass_spec now2 r1 Hok1)
      as (st2 & r2 & n2 & Hp2 & Hok2 & Hperm2 & Hst2 & Hr2 & Hn2 & _).
    destruct (trigger_pass_spec now2 h Hok)
      as (st & r & n & Hp & Hokr & Hperm & Hst & Hr & Hn & _).
    destruct (partition_unique (λ t, Deadline t <= now2) h
                (st1 ++ st2) r2 st r) as [Hps Hpr].
    + rewrite Hperm1, Hperm2. by rewrite app_assoc.
    + done.
    + apply Forall_app. split; [|done].
      eapply Forall_impl; [exact Hst1|]. simpl. intros. lia.
    + eapply Forall_impl; [exact Hr2|]. simpl. intros. lia.
    + done.
    + eapply Forall_impl; [exact Hr|]. simpl. intros. lia.
    + exists st2, r2, n2, st, r. repeat split; try done.
      rewrite Hp. repeat f_equal. subst n n2. symmetry.
      by apply root_deadline_perm.
Qed.

Lemma trigger_passes_compose_witness :
  trigger_pass 15 [Task 20 3; Task 30 1] = Some ([], [Task 20 3; Task 30 1], 20) ∧
  ∃ st2 r2 n2 st r,
    trigger_pass 25 [Task 20 3; Task 30 1] = Some (st2, r2, n2) ∧
    trigger_pass 25 [Task 10 2; Task 30 1; Task 20 3] = Some (st, r, n2) ∧
    [Task 10 2] ++ st2 ≡ₚ st ∧ r2 ≡ₚ r.
Proof.
  apply (trigger_passes_compose [Task 10 2; Task 30 1; Task 20 3] 15 25
           [Task 10 2] [Task 20 3; Task 30 1] 20).
  - apply heap_ok_upto. intros k Hk. simpl in Hk.
    destruct k as [|[|[|k]]]; try lia; vm_compute; discriminate.
  - lia.
  - reflexivity.
Defined.

(** X8. With a clock that does not read before the zero instant, the zero
    instant returned by [trigger] means exactly that the heap is empty: the
    monitor stops its timer only then. *)
Theorem zero_result_means_empty_heap p ctx s now next s' :
  reachable p ctx s → 0 <= now → trigger now s = Ok (next, s') →
  (Time.IsZero next = true ↔ g_tasks s' = []).
Proof.
  intros Hr%reachable_inv Hnow Htr.
  destruct (trigger_Ok now s (inv_heap _ Hr))
    as (started & rest & next' & _ & _ & _ & _ & Hrest & Hnext & _ & Heq).
  rewrite Heq in Htr. simplify_eq.
  match goal with |- context [send_lenC ?s0] =>
    destruct (send_lenC_fields s0) as (_ & _ & _ & -> & _)
  end.
  simpl. unfold Time.IsZero, Time.zero. destruct rest as [|r rest].
  - by rewrite Z.eqb_refl.
  - apply Forall_cons in Hrest as [Hr0 _]. split; [|done].
    intros Hz%Z.eqb_eq. lia.
Qed.

Lemma zero_result_means_empty_heap_witness :
  let s := State None false 1 [Task 10 1] (Some 0) MReady WNotCalled
             [] [] [Task 10 1] in
  let s' := State None false 2 [] (Some 0) MReady WNotCalled
              [Task 10 1] [] [Task 10 1] in
  Time.IsZero 0 = true ↔ g_tasks s' = [].
Proof.
  apply (zero_result_means_empty_heap any_use None
           (State None false 1 [Task 10 1] (Some 0) MReady WNotCalled
              [] [] [Task 10 1]) 10 0).
  - exists [LSchedule 10 1; LMonCheck]. reflexivity.
  - lia.
  - reflexivity.
Defined.

(** X9. After [heap.Push] the root holds the earlier of the new deadline
    and the old root's: a task scheduled before everything else is what the
    monitor sees next. *)
Theorem push_root_is_earliest h x h' :
  heap_ok h → heap_Push h x = Some h' →
  ∃ r, h' !! 0%nat = Some r ∧
       Deadline r = match h !! 0%nat with
                    | Some r0 => Z.min (Deadline x) (Deadline r0)
                    | None => Deadline x
                    end.
Proof.
  intros Hok Hpush.
  destruct (heap_Push_spec h x Hok) as (h1 & Hpush' & Hok' & Hperm).
  assert (h1 = h') as -> by congruence.
  destruct (h' !! 0%nat) as [r|] eqn:Hroot.
  2:{ apply lookup_ge_None in Hroot. destruct h'; [|simpl in Hroot; lia].
      by apply Permutation_nil_cons in Hperm. }
  exists r. split; [done|].
  assert (r ∈ x :: h) as Hin.
  { rewrite <- Hperm. apply list_elem_of_lookup. eauto. }
  assert (Deadline r <= Deadline x).
  { apply (heap_ok_root_min h' r x Hok' Hroot). rewrite Hperm. by left. }
  destruct (h !! 0%nat) as [r0|] eqn:Hr0.
  - assert (Deadline r <= Deadline r0).
    { apply (heap_ok_root_min h' r r0 Hok' Hroot). rewrite Hperm. right.
      apply list_elem_of_lookup. eauto. }
    apply elem_of_cons in Hin as [->|Hin]; [lia|].
    pose proof (heap_ok_root_min h r0 r Hok Hr0 Hin). lia.
  - destruct h; [|done]. apply elem_of_cons in Hin as [->|Hin]; [done|].
    by apply elem_of_nil in Hin.
Qed.

Lemma push_root_is_earliest_witness :
  ∃ r, [Task 5 4; Task 10 2; Task 20 3; Task 30 1] !! 0%nat = Some r ∧
       Deadline r = match [Task 10 2; Task 30 1; Task 20 3] !! 0%nat with
                    | Some r0 => Z.min (Deadline (Task 5 4)) (Deadline r0)
                    | None => Deadline (Task 5 4)
                    end.
Proof.
  apply (push_root_is_earliest [Task 10 2; Task 30 1; Task 20 3] (Task 5 4)).
  - apply heap_ok_upto. intros k Hk. simpl in Hk.
    destruct k as [|[|[|k]]]; try lia; vm_compute; discriminate.
  - reflexivity.
Defined.

(** X10. Push, then pop.  When the task pushed is strictly earlier than
    every task of the heap, [heap.Pop] gives it back and leaves the tasks
    that were there; in any case what [heap.Pop] gives back is no later than
    the task pushed. *)
Theorem push_then_pop h x :
  heap_ok h →
  ∃ h1 t h2,
    heap_Push h x = Some h1 ∧ heap_Pop h1 = Some (t, h2) ∧ heap_ok h2 ∧
    Deadline t <= Deadline x ∧ t :: h2 ≡ₚ x :: h ∧
    (Forall (λ u, Deadline x < Deadline u) h → t = x ∧ h2 ≡ₚ h).
Proof.
  intros Hok.
  destruct (heap_Push_spec h x Hok) as (h1 & Hpush & Hok1 & Hperm1).
  assert (h1 ≠ []) as Hne.
  { intros ->. by apply Permutation_nil_cons in Hperm1. }
  destruct (heap_Pop_spec h1 Hok1 Hne) as (t & h2 & Hpop & Hroot & Hok2 & Hperm2).
  assert (Deadline t <= Deadline x) as Hle.
  { apply (heap_ok_root_min h1 t x Hok1 Hroot). rewrite Hperm1. by left. }
  exists h1, t, h2.
  split; [done|]. split; [done|]. split; [done|]. split; [done|].
  split; [by rewrite <- Hperm2|].
  intros Hall.
  assert (t = x) as ->.
  { assert (t ∈ x :: h) as Hin.
    { rewrite <- Hperm1. apply list_elem_of_lookup. eauto. }
    apply elem_of_cons in Hin as [->|Hin]; [done|].
    rewrite Forall_forall in Hall. apply Hall in Hin. lia. }
  split; [done|].
  eapply Permutation_cons_inv. by rewrite <- Hperm2.
Qed.

Lemma push_then_pop_witness :
  ∃ h1 t h2,
    heap_Push [Task 10 2; Task 30 1; Task 20 3] (Task 5 4) = Some h1 ∧
    heap_Pop h1 = Some (t, h2) ∧ heap_ok h2 ∧
    Deadline t <= Deadline (Task 5 4) ∧
    t :: h2 ≡ₚ Task 5 4 :: [Task 10 2; Task 30 1; Task 20 3] ∧
    (Forall (λ u, Deadline (Task 5 4) < Deadline u)
            [Task 10 2; Task 30 1; Task 20 3] →
     t = Task 5 4 ∧ h2 ≡ₚ [Task 10 2; Task 30 1; Task 20 3]).
Proof.
  apply (push_then_pop [Task 10 2; Task 30 1; Task 20 3] (Task 5 4)).
  apply heap_ok_upto. intros k Hk. simpl in Hk.
  destruct k as [|[|[|k]]]; try lia; vm_compute; discriminate.
Defined.

(** ** Waking the monitor, and the order of starts over a whole run *)

(** X11. A task scheduled while the monitor is parked in its select wakes
    it: the signal on [addC] is delivered, and the monitor's next pass, if
    its clock reads [when] or later, starts the task. *)
Theorem Schedule_wakes_parked_monitor p ctx s tickC when fn now :
  reachable p ctx s → monitor s = MSelect tickC → g_mctx s = false →
  when <= now →
  ∃ s1 s2, Schedule when fn s = Ok s1 ∧ monitor s1 = MTop ∧
           run any_use [LMonCheck; LMonTrigger now] s1 = Ok s2 ∧
           Task when fn ∈ running s2.
Proof.
  intros Hr%reachable_inv Hm Hg Hle.
  destruct (Schedule_Ok when fn s (inv_heap _ Hr))
    as (h & _ & Hok & Hperm & Heq).
  unfold send_addC in Heq. simpl in Heq. rewrite Hm, Hg in Heq.
  match type of Heq with _ = Ok ?s0 => set (s1 := s0) in * end.
  destruct (trigger_Ok now (set_monitor MReady s1) Hok)
    as (started & rest & next & _ & _ & Hp & _ & Hrest & _ & _ & Htr).
  eexists s1, _. split; [exact Heq|]. split; [done|]. split.
  - erewrite run_cons; [|done|].
    2:{ simpl. unfold monitor_step. simpl. by rewrite Hg. }
    erewrite run_cons; [reflexivity|done|].
    simpl. unfold monitor_step. simpl. rewrite Htr. reflexivity.
  - simpl.
    match goal with |- context [send_lenC ?s0] =>
      destruct (send_lenC_fields s0) as (_ & _ & _ & _ & _ & _ & -> & _)
    end.
    simpl. apply elem_of_app. right.
    assert (Task when fn ∈ started ++ rest) as Hin.
    { simpl in Hp. rewrite <- Hp, Hperm. by left. }
    apply elem_of_app in Hin as [Hin|Hin]; [done|].
    rewrite Forall_forall in Hrest. apply Hrest in Hin. simpl in Hin. lia.
Qed.

Lemma Schedule_wakes_parked_monitor_witness :
  ∃ s1 s2,
    Schedule 100 2 (State None false 1 [Task 1000 1] (Some 1000)
                      (MSelect true) WNotCalled [] [] [Task 1000 1]) = Ok s1 ∧
    monitor s1 = MTop ∧
    run any_use [LMonCheck; LMonTrigger 100] s1 = Ok s2 ∧
    Task 100 2 ∈ running s2.
Proof.
  apply (Schedule_wakes_parked_monitor any_use None _ true 100 2 100).
  - exists [LSchedule 1000 1; LMonCheck; LMonTrigger 0; LMonArm].
    reflexivity.
  - reflexivity.
  - reflexivity.
  - lia.
Defined.

Lemma StronglySorted_le_app (l1 l2 : list Z) (m : Z) :
  StronglySorted Z.le l1 → StronglySorted Z.le l2 →
  Forall (λ x, x <= m) l1 → Forall (λ y, m < y) l2 →
  StronglySorted Z.le (l1 ++ l2).
Proof.
  intros Hs1 Hs2 H1 H2. induction Hs1 as [|x l1 Hs1 IH Hx]; [done|].
  apply Forall_cons in H1 as [Hxm H1]. simpl. constructor; [by apply IH|].
  apply Forall_app. split; [done|].
  eapply Forall_impl; [exact H2|]. simpl. intros. lia.
Qed.

(** Steps other than [Schedule], [Delay] and a pass of [trigger] leave the
    heap alone. *)
Lemma step_keeps_heap l s s' :
  step l s = Ok s' →
  match l with
  | LSchedule _ _ | LDelay _ _ _ | LMonTrigger _ => True
  | _ => g_tasks s' = g_tasks s
  end.
Proof.
  intros Hs. destruct l; simpl in Hs;
    try (by apply body_panic_not_Ok in Hs); try done;
    unfold Wait_step, monitor_step, body_done, wg_Done in Hs;
    repeat case_match; by simplify_eq.
Qed.

Lemma starts_sorted tr : ∀ s L,
  inv s → Forall (λ t, L < Deadline t) (g_tasks s) → timed L tr = true →
  StronglySorted Z.le (Deadline <$> starts tr s) ∧
  Forall (λ t, L < Deadline t) (starts tr s).
Proof.
  induction tr as [|l tr IH]; intros s L Hinv Hheap Ht.
  { split; constructor. }
  simpl. destruct (step l s) as [s'| |] eqn:Hs; try (split; constructor).
  pose proof (inv_step _ _ _ Hinv Hs) as Hinv'.
  pose proof (step_keeps_heap _ _ _ Hs) as Hkeep.
  assert (∀ when fn, Schedule when fn s = Ok s' → L < when →
                     Forall (λ t, L < Deadline t) (g_tasks s')) as HS.
  { intros when fn HS Hlt.
    destruct (Schedule_Ok when fn s (inv_heap _ Hinv))
      as (h & _ & _ & Hperm & Heq).
    rewrite Heq in HS. simplify_eq.
    match goal with |- context [send_addC ?s0] =>
      destruct (send_addC_fields s0) as (_ & _ & _ & -> & _)
    end.
    simpl. rewrite Hperm. by constructor. }
  destruct l; simpl in Ht, Hkeep;
    try (unfold started_by; simpl; apply IH; [done|by rewrite Hkeep|done]).
  - apply andb_prop in Ht as [Hlt%Z.ltb_lt Ht].
    unfold started_by. simpl. apply IH; [done| |done]. by eapply HS.
  - apply andb_prop in Ht as [Hlt%Z.ltb_lt Ht].
    unfold started_by. simpl. apply IH; [done| |done]. by eapply HS.
  - apply andb_prop in Ht as [Hle%Z.leb_le Ht].
    simpl in Hs. unfold monitor_step in Hs. unfold started_by.
    destruct (monitor s) eqn:Hm; try done.
    apply obind_Ok in Hs as ([next s1] & Htr & Hs). simplify_eq.
    destruct (trigger_Ok now s (inv_heap _ Hinv))
      as (started & rest & next' & Hpass & _ & Hperm & Hst & Hrest & _ & Hsort
          & Heq).
    rewrite Heq in Htr. simplify_eq. rewrite Hpass.
    match type of Hinv' with inv ?s2 =>
      destruct (IH s2 now Hinv') as [IHs IHf]; [|done|]
    end.
    { simpl.
      match goal with |- context [send_lenC ?s0] =>
        destruct (send_lenC_fields s0) as (_ & _ & _ & -> & _)
      end.
      done. }
    split.
    + rewrite fmap_app. apply (StronglySorted_le_app _ _ now); try done.
      * by apply Forall_fmap.
      * by apply Forall_fmap.
    + apply Forall_app. split.
      * apply Forall_forall. intros t Hin.
        rewrite Forall_forall in Hheap. apply Hheap.
        rewrite Hperm. apply elem_of_app. by left.
      * eapply Forall_impl; [exact IHf|]. simpl. intros. lia.
Qed.

(** X12. Deadline order over a whole run.  When the monitor's clock
    readings do not go back and every task is scheduled with a deadline
    after the last reading the monitor has used, the bodies are started in
    order of non-decreasing deadline, across all passes of [trigger]. *)
Theorem tasks_start_in_deadline_order ctx L tr :
  timed L tr = true →
  StronglySorted Z.le (Deadline <$> starts tr (New ctx)).
Proof.
  intros Ht.
  apply (starts_sorted tr (New ctx) L); [apply inv_New|constructor|done].
Qed.

Lemma tasks_start_in_deadline_order_witness :
  StronglySorted Z.le
    (Deadline <$> [Task 10 2; Task 20 3; Task 25 4; Task 30 1]).
Proof.
  apply (tasks_start_in_deadline_order None 0
           [LSchedule 30 1; LSchedule 10 2; LMonCheck; LMonTrigger 5; LMonArm;
            LSchedule 20 3; LMonCheck; LMonTrigger 22; LMonArm;
            LSchedule 25 4; LMonCheck; LMonTrigger 40]).
  reflexivity.
Defined.

(** ** The nil path of [Wait] cannot block for ever *)

Lemma reachable_run p ctx s tr s' :
  reachable p ctx s → run p tr s = Ok s' → reachable p ctx s'.
Proof.
  intros [tr0 Htr0] Hrun. exists (tr0 ++ tr). by rewrite run_app, Htr0.
Qed.

(** A step of the monitor changes where [Wait] is only by handing it a
    count while it is parked. *)
Lemma monitor_steps_keep_waiter tr : ∀ s s',
  Forall (λ l, is_monitor_label l = true) tr →
  waiter s ≠ WParked → run any_use tr s = Ok s' → waiter s' = waiter s.
Proof.
  induction tr as [|l tr IH]; intros s s' Hall Hw Hrun; simpl in Hrun.
  { by simplify_eq. }
  apply Forall_cons in Hall as [Hl Hall].
  apply obind_Ok in Hrun as (s1 & Hs & Hrun).
  assert (waiter s1 = waiter s) as Hw1.
  { destruct l; try done; simpl in Hs; unfold monitor_step, wg_Done in Hs.
    - repeat case_match; by simplify_eq.
    - destruct (monitor s); try done.
      apply obind_Ok in Hs as ([next s2] & Htr & Hs). simplify_eq. simpl.
      unfold trigger in Htr.
      apply obind_Ok in Htr as ([[started rest] ret] & _ & Htr). simplify_eq.
      unfold send_lenC. simpl.
      destruct (waiter s) eqn:Hws; simpl; rewrite ?Hws; try done.
    - repeat case_match; by simplify_eq.
    - repeat case_match; by simplify_eq.
    - repeat case_match; by simplify_eq. }
  rewrite <- Hw1. apply IH; [done|by rewrite Hw1|done].
Qed.

(** X13. Once [Wait] has seen the heap empty (it is about to call
    [g.cancel], or is in [g.wg.Wait]) nothing can keep it from returning
    nil except a body that does not return: the monitor leaves its loop, the
    running bodies return, and [Wait] returns nil. *)
Theorem Wait_can_finish p ctx s :
  reachable p ctx s → waiter s = WCancel ∨ waiter s = WWg →
  ∃ tr s', run any_use tr s = Ok s' ∧ waiter s' = WReturned None ∧
           Forall (λ l, l = LWaitCancel ∨ l = LWaitWg ∨ l = LBodyDone 0 ∨
                        is_monitor_label l = true) tr.
Proof.
  intros Hr%reachable_any Hw.
  assert (∃ tr1 s1, run any_use tr1 s = Ok s1 ∧ waiter s1 = WWg ∧
                    g_mctx s1 = true ∧
                    Forall (λ l, l = LWaitCancel ∨ l = LWaitWg ∨
                                 l = LBodyDone 0 ∨
                                 is_monitor_label l = true) tr1)
    as (tr1 & s1 & Hrun1 & Hw1 & Hg1 & Hall1).
  { destruct Hw as [Hw|Hw].
    - exists [LWaitCancel], (set_waiter WWg (set_mctx true s)).
      split; [simpl; unfold Wait_step; by rewrite Hw|].
      split; [done|]. split; [done|]. repeat constructor.
    - exists [], s. split; [done|]. split; [done|]. split; [|constructor].
      destruct (reachable_inv_monitor _ _ _ Hr) as [_ Hm].
      apply (invm_cancel _ Hm). by left. }
  pose proof (reachable_run _ _ _ _ _ Hr Hrun1) as Hr1.
  assert (∃ tr2 s2, run any_use tr2 s1 = Ok s2 ∧ monitor s2 = MExited ∧
                    Forall (λ l, is_monitor_label l = true) tr2)
    as (tr2 & s2 & Hrun2 & Hm2 & Hall2).
  { destruct (decide (monitor s1 = MExited)) as [Hm|Hm].
    - exists [], s1. split; [done|]. split; [done|constructor].
    - destruct (monitor_can_exit _ _ _ 0 Hr1 Hg1 Hm)
        as (tr2 & s2 & _ & Hall2 & Hrun2 & Hm2 & _).
      by exists tr2, s2. }
  pose proof (reachable_run _ _ _ _ _ Hr1 Hrun2) as Hr2.
  assert (waiter s2 = WWg) as Hw2.
  { rewrite <- Hw1. apply (monitor_steps_keep_waiter tr2); try done.
    by rewrite Hw1. }
  destruct (reachable_inv _ _ _ Hr2) as [_ _ Hwg _].
  rewrite Hm2 in Hwg. simpl in Hwg.
  pose proof (run_bodies_done any_use (running s2) s2
                ltac:(done) eq_refl Hwg) as Hrun3.
  exists (tr1 ++ tr2 ++ replicate (length (running s2)) (LBodyDone 0)
          ++ [LWaitWg]).
  eexists. split; [|split].
  - rewrite run_app, Hrun1. simpl. rewrite run_app, Hrun2. simpl.
    rewrite run_app, Hrun3. simpl. unfold Wait_step. simpl.
    rewrite Hw2. reflexivity.
  - reflexivity.
  - apply Forall_app. split; [done|].
    apply Forall_app. split.
    { eapply Forall_impl; [exact Hall2|]. simpl. auto. }
    apply Forall_app. split; [|constructor; [auto|constructor]].
    apply Forall_forall. intros l [-> _]%elem_of_replicate. auto.
Qed.

Lemma Wait_can_finish_witness :
  ∃ tr s',
    run any_use tr
      (State None false 2 [] None (MSelect false) WCancel [Task 10 1] []
         [Task 10 1]) = Ok s' ∧
    waiter s' = WReturned None ∧
    Forall (λ l, l = LWaitCancel ∨ l = LWaitWg ∨ l = LBodyDone 0 ∨
                 is_monitor_label l = true) tr.
Proof.
  apply (Wait_can_finish any_use None).
  - exists [LSchedule 10 1; LWaitEnter; LWaitCheckHeap; LWaitSelect; LMonCheck;
            LMonTrigger 10; LMonArm; LWaitAfterRecv].
    reflexivity.
  - by left.
Defined.
